(** * libdns/gcore: the provider adapter, embedded and checked

    The adapter translates the libdns record interface into calls of the
    G-Core DNS client.  This development embeds [provider.go] (the
    revision that carries [qualityRecordNames] and [unqualifyRecordNames])
    together with the parts of its collaborators that the adapter calls:
    a few functions of Go's [strings], [strconv] and [fmt], the record
    shapes and name helpers of package [libdns], and the client of the
    G-Core SDK, the latter as an interface.

    How the program is read:
    - a Go string is a string of bytes; a [time.Duration] is its number
      of nanoseconds; a [uint16] is a number, kept below 65536 by the
      functions that produce one;
    - [net/netip] and the one float computation are an interface
      ([Platform]); the vendor is an interface too ([Client]), a black box
      with a state of its own, and every call made to it is recorded with
      its answer in a trace;
    - a call of the adapter is a function on a [World]: the vendor, the
      trace, and the backing array of the [records] slice that the caller
      passed in, which the adapter overwrites in place;
    - a call ends with a list, with an error and no list, or in a panic;
    - Go leaves the order of a range over a map open: [AppendRecords]
      takes the order of the keys as an argument.

    The embedding comes first, then the vocabulary of the statements, then
    the facts. *)

From Stdlib Require Import String Ascii List ZArith NArith Bool Lia Arith Permutation.
Import ListNotations.
Open Scope string_scope.

(* ================================================================== *)
(** * Go's [strings] package, on byte strings *)
(* ================================================================== *)

Module strings.

(** [strings.HasPrefix(s, prefix)] *)
Fixpoint HasPrefix (s prefix : string) : bool :=
  match prefix, s with
  | EmptyString, _ => true
  | String _ _, EmptyString => false
  | String p prefix', String c s' => Ascii.eqb c p && HasPrefix s' prefix'
  end.

(** [strings.HasSuffix(s, suffix)]: the last [len(suffix)] bytes of [s]
    are [suffix]. *)
Definition HasSuffix (s suffix : string) : bool :=
  Nat.leb (String.length suffix) (String.length s)
  && String.eqb
       (substring (String.length s - String.length suffix) (String.length suffix) s)
       suffix.

(** [strings.TrimSuffix(s, suffix)] *)
Definition TrimSuffix (s suffix : string) : string :=
  if HasSuffix s suffix then substring 0 (String.length s - String.length suffix) s else s.

(** [strings.TrimPrefix(s, prefix)] *)
Definition TrimPrefix (s prefix : string) : string :=
  if HasPrefix s prefix then substring (String.length prefix) (String.length s - String.length prefix) s
  else s.

(** [strings.Contains(s, substr)] *)
Fixpoint Contains (s substr : string) : bool :=
  HasPrefix s substr
  || match s with
     | EmptyString => false
     | String _ s' => Contains s' substr
     end.

(** [strings.TrimLeft(s, ".")] and [strings.TrimRight(s, ".")], the two
    halves of [strings.Trim(s, ".")]. *)
Fixpoint TrimLeftDots (s : string) : string :=
  match s with
  | String "." s' => TrimLeftDots s'
  | _ => s
  end.

Fixpoint TrimRightDots (s : string) : string :=
  match s with
  | EmptyString => EmptyString
  | String c s' =>
      match TrimRightDots s' with
      | EmptyString => if Ascii.eqb c "." then EmptyString else String c EmptyString
      | t => String c t
      end
  end.

(** [strings.Trim(s, ".")] *)
Definition TrimDots (s : string) : string := TrimRightDots (TrimLeftDots s).

(** The part of [s] before the first ['.'] and, when there is one, the
    part after it ([strings.Cut(s, ".")]). *)
Fixpoint CutDot (s : string) : string * option string :=
  match s with
  | EmptyString => (EmptyString, None)
  | String c s' =>
      if Ascii.eqb c "." then (EmptyString, Some s')
      else let (a, b) := CutDot s' in (String c a, b)
  end.

(** [strings.SplitN(s, ".", n)] for [n > 0]: at most [n] pieces, the last
    one keeping the unsplit rest. *)
Fixpoint SplitNDot (n : nat) (s : string) : list string :=
  match n with
  | 0 => []
  | 1 => [s]
  | S n' =>
      match CutDot s with
      | (a, None) => [a]
      | (a, Some b) => a :: SplitNDot n' b
      end
  end.

(** ** White space, as [unicode.IsSpace] sees it in UTF-8 text

    [strings.Fields] splits around runes for which [unicode.IsSpace]
    holds: the six ASCII ones, U+0085, U+00A0, U+1680, U+2000..U+200A,
    U+2028, U+2029, U+202F, U+205F and U+3000.  Their encodings start
    with an ASCII byte or with one of the lead bytes C2, E1, E2, E3, and
    a lead byte never occurs inside another rune, so a space rune sits
    at a byte position exactly when its encoding starts there. *)

Definition byte_is (c : ascii) (n : N) : bool := N.eqb (N_of_ascii c) n.
Definition byte_in (c : ascii) (lo hi : N) : bool :=
  N.leb lo (N_of_ascii c) && N.leb (N_of_ascii c) hi.

Definition asciiSpace (c : ascii) : bool :=
  byte_in c 9 13 || byte_is c 32.

Definition space2 (c1 c2 : ascii) : bool :=
  byte_is c1 194 && (byte_is c2 133 || byte_is c2 160).

Definition space3 (c1 c2 c3 : ascii) : bool :=
  (byte_is c1 225 && byte_is c2 154 && byte_is c3 128)
  || (byte_is c1 226 && byte_is c2 128
      && (byte_in c3 128 138 || byte_is c3 168 || byte_is c3 169 || byte_is c3 175))
  || (byte_is c1 226 && byte_is c2 129 && byte_is c3 159)
  || (byte_is c1 227 && byte_is c2 128 && byte_is c3 128).

(** Number of bytes of the space rune that starts [s]; [0] when [s] does
    not start with one. *)
Definition space_len (s : string) : nat :=
  match s with
  | EmptyString => 0
  | String c1 r1 =>
      if asciiSpace c1 then 1
      else match r1 with
           | EmptyString => 0
           | String c2 r2 =>
               if space2 c1 c2 then 2
               else match r2 with
                    | EmptyString => 0
                    | String c3 _ => if space3 c1 c2 c3 then 3 else 0
                    end
           end
  end.

Definition flush (cur : string) (rest : list string) : list string :=
  match cur with
  | EmptyString => rest
  | _ => cur :: rest
  end.

(** The scan of [strings.Fields]: [skip] counts the bytes of a space rune
    still to pass over, [cur] is the field being collected. *)
Fixpoint fields_scan (skip : nat) (cur : string) (s : string) : list string :=
  match s with
  | EmptyString => flush cur []
  | String c s' =>
      match skip with
      | S k => fields_scan k cur s'
      | 0 =>
          match space_len s with
          | 0 => fields_scan 0 (cur ++ String c EmptyString) s'
          | S k => flush cur (fields_scan k EmptyString s')
          end
      end
  end.

(** [strings.Fields(s)] *)
Definition Fields (s : string) : list string := fields_scan 0 EmptyString s.

(** [strings.Join(elems, sep)] *)
Definition Join (elems : list string) (sep : string) : string :=
  String.concat sep elems.

End strings.

(* ================================================================== *)
(** * [strconv] and [fmt]: unsigned decimal numbers *)
(* ================================================================== *)

Module strconv.

Definition digit_val (c : ascii) : option N :=
  let n := N_of_ascii c in
  if N.leb 48 n && N.leb n 57 then Some (n - 48)%N else None.

Fixpoint parse_digits (acc : N) (s : string) : option N :=
  match s with
  | EmptyString => Some acc
  | String c s' =>
      match digit_val c with
      | Some d => parse_digits (acc * 10 + d)%N s'
      | None => None
      end
  end.

(** [strconv.ParseUint(s, 10, 16)]: a non-empty run of decimal digits
    whose value fits sixteen bits; anything else is an error. *)
Definition ParseUint16 (s : string) : option N :=
  match s with
  | EmptyString => None
  | _ =>
      match parse_digits 0 s with
      | Some n => if N.leb n 65535 then Some n else None
      | None => None
      end
  end.

Definition digit_char (d : N) : ascii := ascii_of_N (48 + d).

Fixpoint format_digits (fuel : nat) (n : N) (acc : string) : string :=
  match fuel with
  | 0 => acc
  | S fuel' =>
      let acc' := String (digit_char (n mod 10)) acc in
      if N.eqb (n / 10) 0 then acc' else format_digits fuel' (n / 10)%N acc'
  end.

(** The verb [%d] of [fmt.Sprintf] on an unsigned integer. *)
Definition FormatUint (n : N) : string :=
  format_digits (S (N.to_nat (N.log2 n))) n EmptyString.

End strconv.

(* ================================================================== *)
(** * What is taken from Go as given *)
(* ================================================================== *)

(** The adapter never looks inside an IP address or a float: it only
    prints and parses addresses ([net/netip]) and truncates
    [time.Duration.Seconds()], a [float64], to [int].  These are kept as
    an interface. *)
Class Platform := {
  Addr : Type;
  (** [netip.Addr.String] *)
  Addr_String : Addr -> string;
  (** [netip.Addr.Is6] *)
  Addr_Is6 : Addr -> bool;
  (** [netip.ParseAddr]; [None] for its error *)
  ParseAddr : string -> option Addr;
  (** [int(d.Seconds())] for a [time.Duration] of [d] nanoseconds *)
  Seconds_int : Z -> Z
}.

(** [netip]: an address that was parsed prints as text that parses back
    to it. *)
Class PlatformLaws (P : Platform) : Prop := {
  ParseAddr_String :
    forall s ip, ParseAddr s = Some ip -> ParseAddr (Addr_String ip) = Some ip
}.

(** [int64] wrap-around, for [time.Duration] arithmetic. *)
Definition wrap64 (z : Z) : Z :=
  ((z + 9223372036854775808) mod 18446744073709551616 - 9223372036854775808)%Z.

(* ================================================================== *)
(** * Package [libdns]: record shapes and name helpers *)
(* ================================================================== *)

(** [libdns.RR]: the untyped record. [TTL] is a [time.Duration], in
    nanoseconds. *)
Module RR.
Record t := mk { Name : string; TTL : Z; Type_ : string; Data : string }.
End RR.

Module Address.
Record t {P : Platform} := mk { Name : string; TTL : Z; IP : Addr }.
End Address.

Module CNAME.
Record t := mk { Name : string; TTL : Z; Target : string }.
End CNAME.

Module TXT.
Record t := mk { Name : string; TTL : Z; Text : string }.
End TXT.

Module MX.
Record t := mk { Name : string; TTL : Z; Preference : N; Target : string }.
End MX.

Module NS.
Record t := mk { Name : string; TTL : Z; Target : string }.
End NS.

Module SRV.
Record t := mk {
  Service : string; Transport : string; Name : string; TTL : Z;
  Priority : N; Weight : N; Port : N; Target : string }.
End SRV.

(** [libdns.Record]: the interface, as the sum of the shapes that
    implement it and that the adapter tells apart.  ([libdns.CAA] and
    [libdns.ServiceBinding] are left out: the adapter returns such a
    record as it is, as it does for an [RR] of a type it has no case
    for.)  A record is never [nil] here, except in the slots of the
    slice that [GetRecords] makes, which are options. *)
Inductive Record {P : Platform} :=
| RecRR (r : RR.t)
| RecAddress (a : Address.t)
| RecCNAME (c : CNAME.t)
| RecTXT (t : TXT.t)
| RecMX (m : MX.t)
| RecNS (n : NS.t)
| RecSRV (s : SRV.t).

Module libdns.
Section libdns.
Context {P : Platform}.

(** [libdns.AbsoluteName(name, zone)].  A name that ends with a dot
    counts as absolute already and is returned as it is. *)
Definition AbsoluteName (name zone : string) : string :=
  if String.eqb zone "" then strings.TrimDots name
  else if String.eqb name "" || String.eqb name "@" then zone
  else if strings.HasSuffix name "." then name
  else name ++ "." ++ zone.

(** [libdns.RelativeName(fqdn, zone)] *)
Definition RelativeName (fqdn zone : string) : string :=
  let rel :=
    strings.TrimSuffix
      (strings.TrimSuffix (strings.TrimSuffix fqdn ".") (strings.TrimSuffix zone "."))
      "." in
  if String.eqb rel "" && negb (String.eqb fqdn "") && negb (String.eqb zone "")
  then "@" else rel.

(** The method [RR()] of every shape. *)
Definition RR_of (record : Record) : RR.t :=
  match record with
  | RecRR r => r
  | RecAddress a =>
      RR.mk (Address.Name a) (Address.TTL a)
            (if Addr_Is6 (Address.IP a) then "AAAA" else "A")
            (Addr_String (Address.IP a))
  | RecCNAME c => RR.mk (CNAME.Name c) (CNAME.TTL c) "CNAME" (CNAME.Target c)
  | RecTXT t => RR.mk (TXT.Name t) (TXT.TTL t) "TXT" (TXT.Text t)
  | RecMX m =>
      RR.mk (MX.Name m) (MX.TTL m) "MX"
            (strconv.FormatUint (MX.Preference m) ++ " " ++ MX.Target m)
  | RecNS n => RR.mk (NS.Name n) (NS.TTL n) "NS" (NS.Target n)
  | RecSRV s =>
      RR.mk (if String.eqb (SRV.Name s) "@"
             then "_" ++ SRV.Service s ++ "._" ++ SRV.Transport s
             else "_" ++ SRV.Service s ++ "._" ++ SRV.Transport s ++ "." ++ SRV.Name s)
            (SRV.TTL s) "SRV"
            (strconv.FormatUint (SRV.Priority s) ++ " "
             ++ strconv.FormatUint (SRV.Weight s) ++ " "
             ++ strconv.FormatUint (SRV.Port s) ++ " " ++ SRV.Target s)
  end.

Definition toAddress (r : RR.t) : option Record :=
  match ParseAddr (RR.Data r) with
  | Some ip => Some (RecAddress (Address.mk P (RR.Name r) (RR.TTL r) ip))
  | None => None
  end.

Definition toMX (r : RR.t) : option Record :=
  match strings.Fields (RR.Data r) with
  | [f0; f1] =>
      match strconv.ParseUint16 f0 with
      | Some priority => Some (RecMX (MX.mk (RR.Name r) (RR.TTL r) priority f1))
      | None => None
      end
  | _ => None
  end.

Definition toSRV (r : RR.t) : option Record :=
  match strings.Fields (RR.Data r) with
  | [f0; f1; f2; f3] =>
      match strings.SplitNDot 3 (RR.Name r) with
      | p0 :: p1 :: rest =>
          let name := match rest with [p2] => p2 | _ => "@" end in
          match strconv.ParseUint16 f0, strconv.ParseUint16 f1, strconv.ParseUint16 f2 with
          | Some priority, Some weight, Some port =>
              Some (RecSRV (SRV.mk (strings.TrimPrefix p0 "_") (strings.TrimPrefix p1 "_")
                                   name (RR.TTL r) priority weight port f3))
          | _, _, _ => None
          end
      | _ => None
      end
  | _ => None
  end.

(** [RR.Parse()]: [None] stands for its error.  A type without a case
    gives the [RR] back. *)
Definition Parse (r : RR.t) : option Record :=
  let ty := RR.Type_ r in
  if String.eqb ty "A" || String.eqb ty "AAAA" then toAddress r
  else if String.eqb ty "CNAME" then
    Some (RecCNAME (CNAME.mk (RR.Name r) (RR.TTL r) (RR.Data r)))
  else if String.eqb ty "MX" then toMX r
  else if String.eqb ty "NS" then
    Some (RecNS (NS.mk (RR.Name r) (RR.TTL r) (RR.Data r)))
  else if String.eqb ty "SRV" then toSRV r
  else if String.eqb ty "TXT" then
    Some (RecTXT (TXT.mk (RR.Name r) (RR.TTL r) (RR.Data r)))
  else Some (RecRR r).

End libdns.
End libdns.

(* ================================================================== *)
(** * The two name helpers of [provider.go] *)
(* ================================================================== *)

Section Names.
Context {P : Platform}.

(** [qualityRecordNames(record, zone)] *)
Definition qualityRecordNames (record : Record) (zone : string) : Record :=
  match libdns.Parse (libdns.RR_of record) with
  | None => record
  | Some (RecAddress addr) =>
      RecAddress (Address.mk P (libdns.AbsoluteName (Address.Name addr) zone)
                             (Address.TTL addr) (Address.IP addr))
  | Some (RecCNAME cname) =>
      RecCNAME (CNAME.mk (libdns.AbsoluteName (CNAME.Name cname) zone)
                         (CNAME.TTL cname) (CNAME.Target cname))
  | Some (RecTXT txt) =>
      RecTXT (TXT.mk (libdns.AbsoluteName (TXT.Name txt) zone) (TXT.TTL txt) (TXT.Text txt))
  | Some (RecMX mx) =>
      RecMX (MX.mk (libdns.AbsoluteName (MX.Name mx) zone) (MX.TTL mx)
                   (MX.Preference mx) (MX.Target mx))
  | Some (RecNS ns) =>
      RecNS (NS.mk (libdns.AbsoluteName (NS.Name ns) zone) (NS.TTL ns) (NS.Target ns))
  | Some (RecSRV srv) =>
      RecSRV (SRV.mk (SRV.Service srv) (SRV.Transport srv)
                     (libdns.AbsoluteName (SRV.Name srv) zone) (SRV.TTL srv)
                     (SRV.Priority srv) (SRV.Weight srv) (SRV.Port srv) (SRV.Target srv))
  | Some (RecRR _) => record
  end.

(** [unqualifyRecordNames(record, zone)] *)
Definition unqualifyRecordNames (record : Record) (zone : string) : Record :=
  match libdns.Parse (libdns.RR_of record) with
  | None => record
  | Some (RecAddress addr) =>
      RecAddress (Address.mk P (libdns.RelativeName (Address.Name addr) zone)
                             (Address.TTL addr) (Address.IP addr))
  | Some (RecCNAME cname) =>
      RecCNAME (CNAME.mk (libdns.RelativeName (CNAME.Name cname) zone)
                         (CNAME.TTL cname) (CNAME.Target cname))
  | Some (RecTXT txt) =>
      RecTXT (TXT.mk (libdns.RelativeName (TXT.Name txt) zone) (TXT.TTL txt) (TXT.Text txt))
  | Some (RecMX mx) =>
      RecMX (MX.mk (libdns.RelativeName (MX.Name mx) zone) (MX.TTL mx)
                   (MX.Preference mx) (MX.Target mx))
  | Some (RecNS ns) =>
      RecNS (NS.mk (libdns.RelativeName (NS.Name ns) zone) (NS.TTL ns) (NS.Target ns))
  | Some (RecSRV srv) =>
      RecSRV (SRV.mk (SRV.Service srv) (SRV.Transport srv)
                     (libdns.RelativeName (SRV.Name srv) zone) (SRV.TTL srv)
                     (SRV.Priority srv) (SRV.Weight srv) (SRV.Port srv) (SRV.Target srv))
  | Some (RecRR _) => record
  end.

End Names.

(* ================================================================== *)
(** * The G-Core SDK: data and client *)
(* ================================================================== *)

(** [gcoreSDK.ResourceRecord]. [Content] is a [[]any]; each item is kept
    by the text [fmt.Sprint] gives for it, which is all the adapter and
    [ContentToString] use. *)
Module ResourceRecord.
Record t := mk { Content : list string; Enabled : bool }.
End ResourceRecord.

(** [ResourceRecord.ContentToString()]: the items, separated by blanks. *)
Definition ContentToString (rr : ResourceRecord.t) : string :=
  strings.Join (ResourceRecord.Content rr) " ".

(** [gcoreSDK.RRSet], with the fields the adapter reads or writes. *)
Module RRSet.
Record t := mk { Type_ : string; TTL : Z; Records : list ResourceRecord.t }.
End RRSet.

(** An entry of the record index of a zone, [gcoreSDK.ZoneRecord]. *)
Module ZoneRecord.
Record t := mk { Name : string; Type_ : string; TTL : Z }.
End ZoneRecord.

(** [gcoreSDK.Zone] *)
Module Zone.
Record t := mk { Records : list ZoneRecord.t }.
End Zone.

(** The four calls of the SDK client that the adapter issues.  The vendor
    is a black box with a state of its own; an error is kept by its
    message ([err.Error()]). *)
Class Client (St : Type) := {
  (** [cli.Zone(ctx, zone)] *)
  cli_Zone : string -> St -> (string + Zone.t) * St;
  (** [cli.RRSet(ctx, zone, name, recordType, -1, 0)] *)
  cli_RRSet : string -> string -> string -> St -> (string + RRSet.t) * St;
  (** [cli.UpdateRRSet(ctx, zone, name, recordType, rrSet)] *)
  cli_UpdateRRSet : string -> string -> string -> RRSet.t -> St -> option string * St;
  (** [cli.DeleteRRSetRecord(ctx, zone, name, recordType, content)] *)
  cli_DeleteRRSetRecord : string -> string -> string -> string -> St -> option string * St
}.

(** A call of the client together with what it answered. *)
Inductive Event :=
| EvZone (zone : string) (res : string + Zone.t)
| EvRRSet (zone name recordType : string) (res : string + RRSet.t)
| EvUpdateRRSet (zone name recordType : string) (rrSet : RRSet.t) (res : option string)
| EvDeleteRRSetRecord (zone name recordType content : string) (res : option string).

(** The errors the adapter returns: one passed on from the SDK, or its own
    [fmt.Errorf("failed to delete record %v", record)], kept by the
    record that is printed into it. *)
Inductive error {P : Platform} :=
| SDKError (msg : string)
| FailedToDelete (record : Record).

(** How a call of the adapter ends: with a value, with an error (and, as
    in the source, a [nil] slice), or in a run-time panic. *)
Inductive Outcome {P : Platform} (A : Type) :=
| Ok (a : A)
| Err (e : error)
| Panic.
Arguments Ok {P A} a.
Arguments Err {P A} e.
Arguments Panic {P A}.

(** What a call of the adapter can change: the vendor, observed through
    the calls made so far (latest last), and the backing array of the
    [records] slice the caller passed in. *)
Record World {P : Platform} {St : Type} := mkWorld {
  client : St;
  trace : list Event;
  caller_records : list Record
}.
Arguments World {P} St.
Arguments mkWorld {P St} client trace caller_records.

Section Monad.
Context {P : Platform} {St : Type}.

Definition M (A : Type) : Type := World St -> Outcome A * World St.

Definition ret {A} (a : A) : M A := fun w => (Ok a, w).
Definition fail {A} (e : error) : M A := fun w => (Err e, w).
Definition panic {A} : M A := fun w => (Panic, w).

Definition bind {A B} (m : M A) (k : A -> M B) : M B :=
  fun w =>
    match m w with
    | (Ok a, w') => k a w'
    | (Err e, w') => (Err e, w')
    | (Panic, w') => (Panic, w')
    end.

End Monad.
Arguments M {P} St A.

Notation "x <- m ;; k" := (bind m (fun x => k))
  (at level 61, m at next level, right associativity).
Notation "m ;;; k" := (bind m (fun _ => k))
  (at level 61, right associativity).

(** [records[i] = x] on a slice of length above [i]. *)
Fixpoint store {A} (l : list A) (i : nat) (x : A) : list A :=
  match l, i with
  | [], _ => []
  | _ :: l', 0 => x :: l'
  | y :: l', S i' => y :: store l' i' x
  end.

(** [for i, record := range records { records[i] = f(record) }], from
    index [i] on, [n] elements to go. *)
Fixpoint update_from {A} (f : A -> A) (i n : nat) (records : list A) : list A :=
  match n with
  | 0 => records
  | S n' =>
      match nth_error records i with
      | Some record => update_from f (S i) n' (store records i (f record))
      | None => records
      end
  end.

Definition update_each {A} (f : A -> A) (records : list A) : list A :=
  update_from f 0 (List.length records) records.

Section Provider.
Context {P : Platform} {St : Type} {cli : Client St}.

Definition log (e : Event) (c : St) (w : World St) : World St :=
  mkWorld c (trace w ++ [e])%list (caller_records w).

Definition call_Zone (zone : string) : M St (string + Zone.t) :=
  fun w => let (res, c) := cli_Zone zone (client w) in
           (Ok res, log (EvZone zone res) c w).

Definition call_RRSet (zone name recordType : string) : M St (string + RRSet.t) :=
  fun w => let (res, c) := cli_RRSet zone name recordType (client w) in
           (Ok res, log (EvRRSet zone name recordType res) c w).

Definition call_UpdateRRSet (zone name recordType : string) (rrSet : RRSet.t)
  : M St (option string) :=
  fun w => let (res, c) := cli_UpdateRRSet zone name recordType rrSet (client w) in
           (Ok res, log (EvUpdateRRSet zone name recordType rrSet res) c w).

Definition call_DeleteRRSetRecord (zone name recordType content : string)
  : M St (option string) :=
  fun w => let (res, c) := cli_DeleteRRSetRecord zone name recordType content (client w) in
           (Ok res, log (EvDeleteRRSetRecord zone name recordType content res) c w).

(** The caller's slice: reading it, and the loop that overwrites each of
    its elements with its qualified form. *)
Definition read_records : M St (list Record) :=
  fun w => (Ok (caller_records w), w).

Definition qualify_records (zone : string) : M St unit :=
  fun w => (Ok tt,
            mkWorld (client w) (trace w)
                    (update_each (fun record => qualityRecordNames record zone)
                                 (caller_records w))).

(** The entry a record adds to an RRSet. *)
Definition new_entry (data : string) : ResourceRecord.t :=
  ResourceRecord.mk [data] true.

(** The merge loop shared by [AppendRecords] and [SetRecords]:
    [for _, rr := range rrSet.Records { if rr.ContentToString() == data
    { continue }; rrSet.Records = append(rrSet.Records, entry) }].
    The range runs over the entries the set had when the loop began. *)
Fixpoint merge_loop (ranged : list ResourceRecord.t) (data : string)
         (records : list ResourceRecord.t) : list ResourceRecord.t :=
  match ranged with
  | [] => records
  | rr :: ranged' =>
      if String.eqb (ContentToString rr) data
      then merge_loop ranged' data records
      else merge_loop ranged' data (records ++ [new_entry data])%list
  end.

Definition merge (rrSet : RRSet.t) (data : string) : RRSet.t :=
  RRSet.mk (RRSet.Type_ rrSet) (RRSet.TTL rrSet)
           (merge_loop (RRSet.Records rrSet) data (RRSet.Records rrSet)).

(** ** [GetRecords] *)

(** [records[i] = libdns.RR{...}] for every entry of the fetched set, in
    turn: each one overwrites slot [i]. *)
Fixpoint fill_slot (gcoreRecord : ZoneRecord.t) (rrs : list ResourceRecord.t)
         (i : nat) (records : list (option Record)) : list (option Record) :=
  match rrs with
  | [] => records
  | rrSet :: rrs' =>
      fill_slot gcoreRecord rrs' i
        (store records i
           (Some (RecRR (RR.mk (ZoneRecord.Name gcoreRecord)
                               (wrap64 (ZoneRecord.TTL gcoreRecord * 1000000000))
                               (ZoneRecord.Type_ gcoreRecord)
                               (ContentToString rrSet)))))
  end.

(** The loop over the record index, from entry [i] on. *)
Fixpoint fetch_loop (zone : string) (entries : list ZoneRecord.t) (i : nat)
         (records : list (option Record)) : M St (list (option Record)) :=
  match entries with
  | [] => ret records
  | gcoreRecord :: entries' =>
      res <- call_RRSet zone (ZoneRecord.Name gcoreRecord) (ZoneRecord.Type_ gcoreRecord) ;;
      match res with
      | inl err => fail (SDKError err)
      | inr rrSets =>
          fetch_loop zone entries' (S i)
                     (fill_slot gcoreRecord (RRSet.Records rrSets) i records)
      end
  end.

(** [records[i] = unqualifyRecordNames(record, zone)] for every slot; a
    slot that is still [nil] makes [record.RR()] panic. *)
Fixpoint unqualify_slots (zone : string) (records : list (option Record))
  : M St (list Record) :=
  match records with
  | [] => ret []
  | None :: _ => panic
  | Some record :: records' =>
      rest <- unqualify_slots zone records' ;;
      ret (unqualifyRecordNames record zone :: rest)
  end.

Definition GetRecords (zone : string) : M St (list Record) :=
  res <- call_Zone zone ;;
  match res with
  | inl err => fail (SDKError err)
  | inr gcoreZone =>
      records <- fetch_loop zone (Zone.Records gcoreZone) 0
                   (repeat None (List.length (Zone.Records gcoreZone))) ;;
      unqualify_slots zone records
  end.

(** ** [AppendRecords] *)

(** [recordsByType], a Go map from record type to a slice of records. *)
Definition map_get (m : list (string * list Record)) (k : string) : list Record :=
  match find (fun kv => String.eqb (fst kv) k) m with
  | Some kv => snd kv
  | None => []
  end.

Fixpoint map_set (m : list (string * list Record)) (k : string) (v : list Record)
  : list (string * list Record) :=
  match m with
  | [] => [(k, v)]
  | (k', v') :: m' =>
      if String.eqb k' k then (k, v) :: m' else (k', v') :: map_set m' k v
  end.

Definition group_by_type (records : list Record) : list (string * list Record) :=
  fold_left
    (fun m record =>
       let ty := RR.Type_ (libdns.RR_of record) in
       map_set m ty (map_get m ty ++ [record])%list)
    records [].

(** The set created when the vendor has none for the name and type. *)
Definition created_set (recordType : string) (record : Record) : RRSet.t :=
  RRSet.mk recordType (Seconds_int (RR.TTL (libdns.RR_of record)))
           [new_entry (RR.Data (libdns.RR_of record))].

(** The body of the inner loop, for one record. *)
Definition append_one (zone recordType : string) (record : Record) : M St unit :=
  let name := RR.Name (libdns.RR_of record) in
  res <- call_RRSet zone name recordType ;;
  match res with
  | inl err =>
      if strings.Contains err "404: record is not found" then
        upd <- call_UpdateRRSet zone name recordType (created_set recordType record) ;;
        match upd with
        | Some err' => fail (SDKError err')
        | None => ret tt
        end
      else fail (SDKError err)
  | inr rrSet =>
      upd <- call_UpdateRRSet zone name recordType
               (merge rrSet (RR.Data (libdns.RR_of record))) ;;
      match upd with
      | Some err' => fail (SDKError err')
      | None => ret tt
      end
  end.

Fixpoint append_records (zone recordType : string) (records addedRecords : list Record)
  : M St (list Record) :=
  match records with
  | [] => ret addedRecords
  | record :: records' =>
      append_one zone recordType record ;;;
      append_records zone recordType records' (addedRecords ++ [record])%list
  end.

(** The outer loop ranges over the map; Go leaves the order of the keys
    open, so the order the run-time picks is an argument. *)
Fixpoint append_types (zone : string) (recordsByType : list (string * list Record))
         (order : list string) (addedRecords : list Record) : M St (list Record) :=
  match order with
  | [] => ret addedRecords
  | recordType :: order' =>
      added <- append_records zone recordType (map_get recordsByType recordType)
                 addedRecords ;;
      append_types zone recordsByType order' added
  end.

Definition AppendRecords (zone : string) (order : list string) : M St (list Record) :=
  qualify_records zone ;;;
  records <- read_records ;;
  addedRecords <- append_types zone (group_by_type records) order [] ;;
  ret (update_each (fun record => unqualifyRecordNames record zone) addedRecords).

(** ** [SetRecords] *)

Definition set_one (zone : string) (record : Record) : M St unit :=
  let name := RR.Name (libdns.RR_of record) in
  let recordType := RR.Type_ (libdns.RR_of record) in
  res <- call_RRSet zone name recordType ;;
  match res with
  | inl err => fail (SDKError err)
  | inr rrSet =>
      upd <- call_UpdateRRSet zone name recordType
               (merge rrSet (RR.Data (libdns.RR_of record))) ;;
      match upd with
      | Some err' => fail (SDKError err')
      | None => ret tt
      end
  end.

Fixpoint set_records (zone : string) (records updatedRecords : list Record)
  : M St (list Record) :=
  match records with
  | [] => ret updatedRecords
  | record :: records' =>
      set_one zone record ;;;
      set_records zone records' (updatedRecords ++ [record])%list
  end.

Definition SetRecords (zone : string) : M St (list Record) :=
  qualify_records zone ;;;
  records <- read_records ;;
  updatedRecords <- set_records zone records [] ;;
  ret (update_each (fun record => unqualifyRecordNames record zone) updatedRecords).

(** ** [DeleteRecords] *)

Definition delete_one (zone : string) (record : Record) : M St unit :=
  let rr := libdns.RR_of record in
  res <- call_DeleteRRSetRecord zone (RR.Name rr) (RR.Type_ rr) (RR.Data rr) ;;
  match res with
  | Some _ => fail (FailedToDelete record)
  | None => ret tt
  end.

Fixpoint delete_records (zone : string) (records deletedRecords : list Record)
  : M St (list Record) :=
  match records with
  | [] => ret deletedRecords
  | record :: records' =>
      delete_one zone record ;;;
      delete_records zone records' (deletedRecords ++ [record])%list
  end.

Definition DeleteRecords (zone : string) : M St (list Record) :=
  qualify_records zone ;;;
  records <- read_records ;;
  deletedRecords <- delete_records zone records [] ;;
  ret (update_each (fun record => unqualifyRecordNames record zone) deletedRecords).

End Provider.

(** The orders in which the run-time may range over [recordsByType]: each
    key once. *)
Definition key_order {P : Platform} (records : list Record) (order : list string) : Prop :=
  NoDup order /\
  (forall ty,
      In ty order <-> In ty (map (fun record => RR.Type_ (libdns.RR_of record)) records)).

(* ================================================================== *)
(** * Stand-ins used to run the adapter on concrete inputs *)
(* ================================================================== *)

(** Every byte of [s] passes [f]. *)
Fixpoint all_chars (f : ascii -> bool) (s : string) : bool :=
  match s with
  | EmptyString => true
  | String c s' => f c && all_chars f s'
  end.

Module sample.

Definition addr_char (c : ascii) : bool :=
  let n := N_of_ascii c in
  (N.leb 48 n && N.leb n 58) || (N.leb 97 n && N.leb n 102) || N.eqb n 46.

(** A stand-in for [net/netip]: an address is kept by its text, which is
    accepted when it is made of digits, [a]..[f], dots and colons. *)
Definition parse_addr (s : string) : option string :=
  match s with
  | EmptyString => None
  | _ => if all_chars addr_char s then Some s else None
  end.

#[export] Instance platform : Platform := {|
  Addr := string;
  Addr_String := fun ip => ip;
  Addr_Is6 := fun ip => strings.Contains ip ":";
  ParseAddr := parse_addr;
  Seconds_int := fun d => Z.quot d 1000000000
|}.

(** A stand-in for the vendor: the RRSets of one zone, by name and type.
    A fetch of a missing set and a delete from a missing set fail with
    the vendor's not-found message; an update stores the set. *)
Definition Store := list ((string * string) * RRSet.t).

Definition key_eqb (k1 k2 : string * string) : bool :=
  String.eqb (fst k1) (fst k2) && String.eqb (snd k1) (snd k2).

Definition lookup (st : Store) (k : string * string) : option RRSet.t :=
  match find (fun kv => key_eqb (fst kv) k) st with
  | Some kv => Some (snd kv)
  | None => None
  end.

Fixpoint upsert (st : Store) (k : string * string) (v : RRSet.t) : Store :=
  match st with
  | [] => [(k, v)]
  | (k', v') :: st' =>
      if key_eqb k' k then (k, v) :: st' else (k', v') :: upsert st' k v
  end.

Definition not_found : string := "404: record is not found".

Definition without (content : string) (rrSet : RRSet.t) : RRSet.t :=
  RRSet.mk (RRSet.Type_ rrSet) (RRSet.TTL rrSet)
           (filter (fun rr => negb (String.eqb (ContentToString rr) content))
                   (RRSet.Records rrSet)).

#[export] Instance vendor : Client Store := {|
  cli_Zone := fun zone st =>
    (inr (Zone.mk (map (fun kv => ZoneRecord.mk (fst (fst kv)) (snd (fst kv))
                                                (RRSet.TTL (snd kv))) st)), st);
  cli_RRSet := fun zone name recordType st =>
    match lookup st (name, recordType) with
    | Some rrSet => (inr rrSet, st)
    | None => (inl not_found, st)
    end;
  cli_UpdateRRSet := fun zone name recordType rrSet st =>
    (None, upsert st (name, recordType) rrSet);
  cli_DeleteRRSetRecord := fun zone name recordType content st =>
    match lookup st (name, recordType) with
    | Some rrSet => (None, upsert st (name, recordType) (without content rrSet))
    | None => (Some not_found, st)
    end
|}.

(** A vendor that is out of reach: every call fails. *)
Definition down : Client unit := {|
  cli_Zone := fun _ st => (inl "503: service unavailable", st);
  cli_RRSet := fun _ _ _ st => (inl "503: service unavailable", st);
  cli_UpdateRRSet := fun _ _ _ _ st => (Some "503: service unavailable", st);
  cli_DeleteRRSetRecord := fun _ _ _ _ st => (Some "503: service unavailable", st)
|}.

Definition world (st : Store) (records : list Record) : World Store :=
  mkWorld st [] records.

End sample.

(* ================================================================== *)
(** * Vocabulary of the statements *)
(* ================================================================== *)

(** A zone-relative record name: not empty, and without the trailing dot
    that marks an absolute name. *)
Definition relative_name (name : string) : Prop :=
  name <> "" /\ strings.HasSuffix name "." = false.

(** No space rune starts inside [cur] when [cur] is followed by [s]. *)
Fixpoint solid_before (cur s : string) : Prop :=
  match cur with
  | EmptyString => True
  | String _ cur' => strings.space_len (cur ++ s) = 0 /\ solid_before cur' s
  end.

(** A field as [strings.Fields] cuts it: not empty and free of space. *)
Definition clean (f : string) : Prop := f <> "" /\ solid_before f "".

(** No dot in [s]: one label of a name. *)
Fixpoint no_dot (s : string) : Prop :=
  match s with
  | EmptyString => True
  | String c s' => Ascii.eqb c "." = false /\ no_dot s'
  end.

(** What may follow a field: the end of the text, or a blank. *)
Definition field_end (t : string) : Prop :=
  t = "" \/ exists t', t = String " " t'.

(** A decimal digit. *)
Definition is_digit (c : ascii) : bool :=
  N.leb 48 (N_of_ascii c) && N.leb (N_of_ascii c) 57.

(** [%d] prints [n] as a non-empty run of digits that [ParseUint] reads
    back as [n]. *)
Definition decimal_ok (n : N) : bool :=
  match strconv.ParseUint16 (strconv.FormatUint n) with
  | Some m => N.eqb m n
  | None => false
  end
  && all_chars is_digit (strconv.FormatUint n)
  && negb (String.eqb (strconv.FormatUint n) "").

(** [f] on every number of [bits] more binary digits after [hi]. *)
Fixpoint all_bits (f : N -> bool) (bits : nat) (hi : N) : bool :=
  match bits with
  | 0 => f hi
  | S b => all_bits f b (2 * hi) && all_bits f b (2 * hi + 1)
  end.

(** The [Name] field of a record. *)
Definition Name_of {P : Platform} (record : Record) : string :=
  match record with
  | RecRR r => RR.Name r
  | RecAddress a => Address.Name a
  | RecCNAME c => CNAME.Name c
  | RecTXT t => TXT.Name t
  | RecMX m => MX.Name m
  | RecNS n => NS.Name n
  | RecSRV s => SRV.Name s
  end.

(** The same record under another name. *)
Definition with_name {P : Platform} (record : Record) (name : string) : Record :=
  match record with
  | RecRR r => RecRR (RR.mk name (RR.TTL r) (RR.Type_ r) (RR.Data r))
  | RecAddress a => RecAddress (Address.mk P name (Address.TTL a) (Address.IP a))
  | RecCNAME c => RecCNAME (CNAME.mk name (CNAME.TTL c) (CNAME.Target c))
  | RecTXT t => RecTXT (TXT.mk name (TXT.TTL t) (TXT.Text t))
  | RecMX m => RecMX (MX.mk name (MX.TTL m) (MX.Preference m) (MX.Target m))
  | RecNS n => RecNS (NS.mk name (NS.TTL n) (NS.Target n))
  | RecSRV s =>
      RecSRV (SRV.mk (SRV.Service s) (SRV.Transport s) name (SRV.TTL s)
                     (SRV.Priority s) (SRV.Weight s) (SRV.Port s) (SRV.Target s))
  end.

(** The six shapes the name helpers have a case for. *)
Definition supported_shape {P : Platform} (record : Record) : bool :=
  match record with
  | RecRR _ => false
  | _ => true
  end.

(** An SRV record names its service and its transport by one label each:
    no dot inside. *)
Definition single_labels {P : Platform} (record : Record) : Prop :=
  match record with
  | RecSRV s => no_dot (SRV.Service s) /\ no_dot (SRV.Transport s)
  | _ => True
  end.

(** What [Parse] guarantees of the record it returns. *)
Definition canonical {P : Platform} (record : Record) : Prop :=
  match record with
  | RecRR _ => True
  | RecAddress a => ParseAddr (Addr_String (Address.IP a)) = Some (Address.IP a)
  | RecCNAME _ | RecTXT _ | RecNS _ => True
  | RecMX m => (MX.Preference m <= 65535)%N /\ clean (MX.Target m)
  | RecSRV s =>
      no_dot (SRV.Service s) /\ no_dot (SRV.Transport s)
      /\ (SRV.Priority s <= 65535)%N /\ (SRV.Weight s <= 65535)%N
      /\ (SRV.Port s <= 65535)%N /\ clean (SRV.Target s)
  end.

(** The three batch loops have one form: a step for each record in turn,
    the record joining the result list when its step succeeds. *)
Fixpoint run_steps {P : Platform} {St : Type} (step : Record -> M St unit)
         (records acc : list Record) : M St (list Record) :=
  match records with
  | [] => ret acc
  | record :: records' => step record ;;; run_steps step records' (acc ++ [record])%list
  end.

(** The step of [AppendRecords] for a record, under the key of its group. *)
Definition append_step {P : Platform} {St : Type} {cli : Client St}
           (zone : string) (record : Record) : M St unit :=
  append_one zone (RR.Type_ (libdns.RR_of record)) record.

(** The records of type [ty], in the order of the batch. *)
Definition of_type {P : Platform} (ty : string) (records : list Record) : list Record :=
  filter (fun record => String.eqb (RR.Type_ (libdns.RR_of record)) ty) records.

(** The order in which [AppendRecords] goes through a batch: group after
    group, in the order of the keys. *)
Definition plan {P : Platform} (order : list string) (records : list Record)
  : list Record :=
  concat (map (fun ty => of_type ty records) order).

(** The world once the caller's slice has been overwritten. *)
Definition qualified {P : Platform} {St : Type} (zone : string) (w : World St)
  : World St :=
  mkWorld (client w) (trace w)
          (map (fun record => qualityRecordNames record zone) (caller_records w)).

(** The last loop of a batch call, on how the main loop ended. *)
Definition finish {P : Platform} {St : Type} (zone : string)
           (r : Outcome (list Record) * World St) : Outcome (list Record) * World St :=
  match r with
  | (Ok records, w) => (Ok (map (fun record => unqualifyRecordNames record zone) records), w)
  | (Err e, w) => (Err e, w)
  | (Panic, w) => (Panic, w)
  end.

(** The record a call of the client is about. *)
Definition about {P : Platform} (record : Record) (ev : Event) : Prop :=
  let rr := libdns.RR_of record in
  match ev with
  | EvZone _ _ => False
  | EvRRSet _ name ty _ => name = RR.Name rr /\ ty = RR.Type_ rr
  | EvUpdateRRSet _ name ty _ _ => name = RR.Name rr /\ ty = RR.Type_ rr
  | EvDeleteRRSetRecord _ name ty content _ =>
      name = RR.Name rr /\ ty = RR.Type_ rr /\ content = RR.Data rr
  end.

(** A step is confined to its record when all it does is call the client
    about that record: it leaves the caller's slice alone, and the trace
    grows by calls about the record. *)
Definition confined {P : Platform} {St : Type} (step : Record -> M St unit) : Prop :=
  forall record w o w',
    step record w = (o, w') ->
    caller_records w' = caller_records w /\
    exists evs, trace w' = (trace w ++ evs)%list /\ Forall (about record) evs.

(** How many entries of a set do not hold [data]. *)
Definition others (data : string) (records : list ResourceRecord.t) : nat :=
  List.length (filter (fun rr => negb (String.eqb (ContentToString rr) data)) records).

(** A batch call [result] of a loop of [step]s over [records], started
    in the world [w0], stops at the first failing record: whenever the
    records [pre] went through and the step of the next record fails with
    [e], the call ends with [e] and no list, in the world that step left;
    the client has been called about the records of [pre] and about the
    failing record, and about nothing else. *)
Definition stops_at_first_failure {P : Platform} {St : Type}
           (step : Record -> M St unit) (records : list Record) (w0 : World St)
           (result : Outcome (list Record) * World St) : Prop :=
  forall pre record post added w1 e w2,
    records = (pre ++ record :: post)%list ->
    run_steps step pre [] w0 = (Ok added, w1) ->
    step record w1 = (Err e, w2) ->
    result = (Err e, w2)
    /\ added = pre
    /\ exists evs_pre evs_record,
        trace w2 = (trace w0 ++ evs_pre ++ evs_record)%list
        /\ Forall (fun ev => exists r, In r pre /\ about r ev) evs_pre
        /\ Forall (about record) evs_record.

(** No fetch among [evs] was answered with the not-found error. *)
Definition no_not_found (evs : list Event) : Prop :=
  forall zone name ty msg,
    In (EvRRSet zone name ty (inl msg)) evs ->
    strings.Contains msg "404: record is not found" = false.

(** The value of the last entry of a set, if it has an entry. *)
Fixpoint last_value (rrs : list ResourceRecord.t) : option string :=
  match rrs with
  | [] => None
  | rr :: rrs' =>
      match last_value rrs' with
      | Some value => Some value
      | None => Some (ContentToString rr)
      end
  end.

(** The record [GetRecords] builds for an index entry and a value. *)
Definition entry_record {P : Platform} (entry : ZoneRecord.t) (value : string) : Record :=
  RecRR (RR.mk (ZoneRecord.Name entry) (wrap64 (ZoneRecord.TTL entry * 1000000000))
               (ZoneRecord.Type_ entry) value).

(** The call that fetches the set of an index entry, with its answer. *)
Definition fetch_event (zone : string) (fetch : ZoneRecord.t * RRSet.t) : Event :=
  EvRRSet zone (ZoneRecord.Name (fst fetch)) (ZoneRecord.Type_ (fst fetch))
          (inr (snd fetch)).

(** The slot of an index entry after its set was gone through. *)
Definition slot_of {P : Platform} (fetch : ZoneRecord.t * RRSet.t) : option Record :=
  match last_value (RRSet.Records (snd fetch)) with
  | Some value => Some (entry_record (fst fetch) value)
  | None => None
  end.

(** [r] is what [unqualifyRecordNames] makes of [r0]: for a record that
    parses into one of the six shapes, the parsed record under the
    zone-relative form of its name; otherwise [r0] itself. *)
Definition unqualified_from {P : Platform} (zone : string) (r0 r : Record) : Prop :=
  r = unqualifyRecordNames r0 zone
  /\ match libdns.Parse (libdns.RR_of r0) with
     | Some parsed =>
         if supported_shape parsed
         then r = with_name parsed (libdns.RelativeName (Name_of parsed) zone)
         else r = r0
     | None => r = r0
     end.


(** The kind of a call of the client, and the zone it is made for. *)
Inductive CallKind := ZoneCall | FetchCall | PushCall | DeleteCall.

Definition kind_of (ev : Event) : CallKind :=
  match ev with
  | EvZone _ _ => ZoneCall
  | EvRRSet _ _ _ _ => FetchCall
  | EvUpdateRRSet _ _ _ _ _ => PushCall
  | EvDeleteRRSetRecord _ _ _ _ _ => DeleteCall
  end.

Definition zone_of (ev : Event) : string :=
  match ev with
  | EvZone zone _ => zone
  | EvRRSet zone _ _ _ => zone
  | EvUpdateRRSet zone _ _ _ _ => zone
  | EvDeleteRRSetRecord zone _ _ _ _ => zone
  end.

(** The calls [evs] are all made for [zone] and are all of one of the
    [kinds]. *)
Definition calls_only (zone : string) (kinds : list CallKind) (evs : list Event) : Prop :=
  Forall (fun ev => zone_of ev = zone /\ In (kind_of ev) kinds) evs.

(** The failed fetch of the set of an index entry. *)
Definition failed_fetch (zone : string) (entry : ZoneRecord.t) (msg : string) : Event :=
  EvRRSet zone (ZoneRecord.Name entry) (ZoneRecord.Type_ entry) (inl msg).

(** The delete call for a record, answered without an error. *)
Definition delete_event {P : Platform} (zone : string) (record : Record) : Event :=
  let rr := libdns.RR_of record in
  EvDeleteRRSetRecord zone (RR.Name rr) (RR.Type_ rr) (RR.Data rr) None.

(** The two calls of [SetRecords] for a record whose set was fetched and
    pushed back without an error. *)
Definition set_events {P : Platform} (zone : string) (step : Record * RRSet.t)
  : list Event :=
  let rr := libdns.RR_of (fst step) in
  [EvRRSet zone (RR.Name rr) (RR.Type_ rr) (inr (snd step));
   EvUpdateRRSet zone (RR.Name rr) (RR.Type_ rr) (merge (snd step) (RR.Data rr)) None].

(** A batch call splits in two: when the call on a first batch went
    well, the call on a second batch, made on the vendor the first call
    left, leaves the vendor and the trace as one call on both batches
    together does, and the two returned lists make up the list of the
    one call. *)
Definition splits_in_two {P : Platform} {St : Type} (op : M St (list Record)) : Prop :=
  forall c t rs1 rs2 out1 w1,
    op (mkWorld c t rs1) = (Ok out1, w1) ->
    let second := op (mkWorld (client w1) (trace w1) rs2) in
    let whole := op (mkWorld c t (rs1 ++ rs2)%list) in
    fst whole = match fst second with
                | Ok out2 => Ok (out1 ++ out2)%list
                | Err e => Err e
                | Panic => Panic
                end
    /\ client (snd whole) = client (snd second)
    /\ trace (snd whole) = trace (snd second).

(** A step that does not look at the caller's slice. *)
Definition blind {P : Platform} {St : Type} (step : Record -> M St unit) : Prop :=
  forall record w x,
    step record (mkWorld (client w) (trace w) x)
    = (fst (step record w),
       mkWorld (client (snd (step record w))) (trace (snd (step record w))) x).

(* ================================================================== *)
(** * The string functions on examples *)
(* ================================================================== *)

Example HasSuffix_ex : strings.HasSuffix "www.example.com." "." = true.
Proof. reflexivity. Qed.
Example TrimSuffix_ex :
  strings.TrimSuffix "www.example.com" "example.com" = "www.".
Proof. reflexivity. Qed.
Example TrimDots_ex : strings.TrimDots "..a.b.." = "a.b".
Proof. reflexivity. Qed.
Example SplitN_ex :
  strings.SplitNDot 3 "_sip._tcp.www.example.com." = ["_sip"; "_tcp"; "www.example.com."].
Proof. reflexivity. Qed.
Example SplitN_ex2 : strings.SplitNDot 3 "_sip" = ["_sip"].
Proof. reflexivity. Qed.
Example Fields_ex : strings.Fields "  10   mail.example.com. " = ["10"; "mail.example.com."].
Proof. reflexivity. Qed.
Example Fields_nbsp :
  strings.Fields (String "a" (String "194" (String "160" "b"))) = ["a"; "b"].
Proof. reflexivity. Qed.
Example Contains_ex :
  strings.Contains "get rrset: 404: record is not found" "404: record is not found" = true.
Proof. reflexivity. Qed.
Example ParseUint16_ex : strconv.ParseUint16 "0010" = Some 10%N.
Proof. reflexivity. Qed.
Example ParseUint16_range : strconv.ParseUint16 "65536" = None.
Proof. reflexivity. Qed.
Example ParseUint16_sign : strconv.ParseUint16 "+1" = None.
Proof. reflexivity. Qed.
Example FormatUint_ex : strconv.FormatUint 65535 = "65535" /\ strconv.FormatUint 0 = "0".
Proof. split; reflexivity. Qed.

(* ================================================================== *)
(** * Facts about the string functions *)
(* ================================================================== *)

Section StringFacts.

Lemma length_app (a b : string) :
  String.length (a ++ b) = String.length a + String.length b.
Proof. induction a as [|c a IH]; simpl; [reflexivity | now rewrite IH]. Qed.

Lemma app_empty_r (a : string) : a ++ "" = a.
Proof. induction a as [|c a IH]; simpl; [reflexivity | now rewrite IH]. Qed.

Lemma app_assoc (a b c : string) : (a ++ b) ++ c = a ++ b ++ c.
Proof. induction a as [|x a IH]; simpl; [reflexivity | now rewrite IH]. Qed.

Lemma substring_all (s : string) : substring 0 (String.length s) s = s.
Proof. induction s as [|c s IH]; simpl; [reflexivity | now rewrite IH]. Qed.

Lemma substring_app_l (a b : string) : substring 0 (String.length a) (a ++ b) = a.
Proof.
  induction a as [|c a IH]; simpl.
  - destruct b; reflexivity.
  - now rewrite IH.
Qed.

Lemma substring_app_r (a b : string) :
  substring (String.length a) (String.length b) (a ++ b) = b.
Proof. induction a as [|c a IH]; simpl; [apply substring_all | exact IH]. Qed.

Lemma substring_split (s : string) (n : nat) :
  n <= String.length s ->
  s = substring 0 n s ++ substring n (String.length s - n) s.
Proof.
  revert n. induction s as [|c s IH]; intros n Hn; simpl in *.
  - destruct n; [reflexivity | lia].
  - destruct n as [|n]; simpl.
    + now rewrite substring_all.
    + f_equal. apply IH. lia.
Qed.

Lemma HasSuffix_app (a b : string) : strings.HasSuffix (a ++ b) b = true.
Proof.
  unfold strings.HasSuffix. rewrite length_app.
  replace (String.length a + String.length b - String.length b) with (String.length a) by lia.
  rewrite substring_app_r, String.eqb_refl.
  rewrite andb_true_r. apply Nat.leb_le. lia.
Qed.

Lemma TrimSuffix_app (a b : string) : strings.TrimSuffix (a ++ b) b = a.
Proof.
  unfold strings.TrimSuffix. rewrite HasSuffix_app, length_app.
  replace (String.length a + String.length b - String.length b) with (String.length a) by lia.
  apply substring_app_l.
Qed.

Lemma HasSuffix_true (s t : string) :
  strings.HasSuffix s t = true -> s = strings.TrimSuffix s t ++ t.
Proof.
  intros H. unfold strings.TrimSuffix. rewrite H.
  unfold strings.HasSuffix in H. apply andb_true_iff in H as [Hlen Heq].
  apply Nat.leb_le in Hlen. apply String.eqb_eq in Heq.
  rewrite (substring_split s (String.length s - String.length t)) at 1 by lia.
  f_equal.
  replace (String.length s - (String.length s - String.length t))
    with (String.length t) by lia.
  exact Heq.
Qed.

Lemma TrimSuffix_false (s t : string) :
  strings.HasSuffix s t = false -> strings.TrimSuffix s t = s.
Proof. intros H. unfold strings.TrimSuffix. now rewrite H. Qed.

Lemma TrimSuffix_empty_l (t : string) : strings.TrimSuffix "" t = "".
Proof. unfold strings.TrimSuffix. destruct (strings.HasSuffix "" t); reflexivity. Qed.

(** The last byte of [a ++ b] is the last byte of a non-empty [b]. *)
Lemma HasSuffix_dot_app (a b : string) :
  b <> "" -> strings.HasSuffix (a ++ b) "." = strings.HasSuffix b ".".
Proof.
  intros Hb.
  destruct (strings.HasSuffix b ".") eqn:E.
  - apply HasSuffix_true in E. rewrite E, <- app_assoc. apply HasSuffix_app.
  - destruct (strings.HasSuffix (a ++ b) ".") eqn:E'; [|reflexivity].
    exfalso.
    unfold strings.HasSuffix in E, E'. simpl String.length in *.
    apply andb_true_iff in E' as [_ E'].
    assert (Hlen : 1 <= String.length b)
      by (destruct b; [congruence | simpl; lia]).
    assert (Hle : Nat.leb 1 (String.length b) = true) by (apply Nat.leb_le; lia).
    rewrite Hle in E. simpl in E.
    assert (Hsub : substring (String.length (a ++ b) - 1) 1 (a ++ b)
                   = substring (String.length b - 1) 1 b).
    { rewrite length_app.
      replace (String.length a + String.length b - 1)
        with (String.length a + (String.length b - 1)) by lia.
      clear. induction a as [|c a IH]; simpl; [reflexivity | exact IH]. }
    rewrite Hsub in E'. congruence.
Qed.

End StringFacts.

(* ================================================================== *)
(** * Facts about the name helpers of [libdns] *)
(* ================================================================== *)

Section NameFacts.
Context {P : Platform}.

Lemma eqb_empty_false (s : string) : s <> "" -> String.eqb s "" = false.
Proof. intros H. now apply String.eqb_neq. Qed.

Lemma AbsoluteName_relative (name zone : string) :
  zone <> "" -> relative_name name -> name <> "@" ->
  libdns.AbsoluteName name zone = name ++ "." ++ zone.
Proof.
  intros Hz [Hn Hdot] Hat. unfold libdns.AbsoluteName.
  rewrite (eqb_empty_false zone Hz), (eqb_empty_false name Hn).
  apply String.eqb_neq in Hat. now rewrite Hat, Hdot.
Qed.

Lemma AbsoluteName_root (zone : string) :
  zone <> "" -> libdns.AbsoluteName "@" zone = zone.
Proof.
  intros Hz. unfold libdns.AbsoluteName. now rewrite (eqb_empty_false zone Hz).
Qed.

Lemma RelativeName_root (zone : string) :
  zone <> "" -> libdns.RelativeName zone zone = "@".
Proof.
  intros Hz. unfold libdns.RelativeName.
  replace (strings.TrimSuffix (strings.TrimSuffix zone ".") (strings.TrimSuffix zone "."))
    with "" by (symmetry; apply (TrimSuffix_app "")).
  rewrite TrimSuffix_empty_l. now rewrite (eqb_empty_false zone Hz).
Qed.

Lemma RelativeName_joined (name zone : string) :
  zone <> "" -> relative_name name ->
  libdns.RelativeName (name ++ "." ++ zone) zone = name.
Proof.
  intros Hz [Hn Hdot]. unfold libdns.RelativeName.
  assert (Hcut : strings.TrimSuffix (name ++ "." ++ zone) "."
                 = name ++ "." ++ strings.TrimSuffix zone ".").
  { destruct (strings.HasSuffix zone ".") eqn:E.
    - pose proof (HasSuffix_true _ _ E) as Hzone.
      rewrite Hzone at 1.
      replace (name ++ "." ++ strings.TrimSuffix zone "." ++ ".")
        with ((name ++ "." ++ strings.TrimSuffix zone ".") ++ ".")
        by now rewrite !app_assoc.
      apply TrimSuffix_app.
    - rewrite (TrimSuffix_false zone "." E).
      apply TrimSuffix_false.
      replace (name ++ "." ++ zone) with ((name ++ ".") ++ zone) by now rewrite app_assoc.
      now rewrite HasSuffix_dot_app. }
  rewrite Hcut.
  replace (name ++ "." ++ strings.TrimSuffix zone ".")
    with ((name ++ ".") ++ strings.TrimSuffix zone ".") by now rewrite app_assoc.
  rewrite TrimSuffix_app, TrimSuffix_app.
  now rewrite (eqb_empty_false name Hn).
Qed.

(** Making a zone-relative name absolute and relative again gives it
    back. *)
Lemma RelativeName_AbsoluteName (name zone : string) :
  zone <> "" -> relative_name name ->
  libdns.RelativeName (libdns.AbsoluteName name zone) zone = name.
Proof.
  intros Hz Hn.
  destruct (String.eqb name "@") eqn:E.
  - apply String.eqb_eq in E. subst name.
    now rewrite AbsoluteName_root, RelativeName_root.
  - apply String.eqb_neq in E.
    now rewrite AbsoluteName_relative, RelativeName_joined.
Qed.

End NameFacts.

(* ================================================================== *)
(** * Facts about [strings.Fields] and the decimal numbers *)
(* ================================================================== *)

Section FieldsFacts.

Lemma space_len_prefix (s t : string) (k : nat) :
  strings.space_len s = S k -> strings.space_len (s ++ t) = S k.
Proof.
  destruct s as [|c1 [|c2 [|c3 r]]]; simpl; try discriminate.
  - destruct (strings.asciiSpace c1); [auto | discriminate].
  - destruct (strings.asciiSpace c1); [auto|].
    destruct (strings.space2 c1 c2); [auto | discriminate].
  - auto.
Qed.

Lemma space_len_prefix_0 (s t : string) :
  strings.space_len (s ++ t) = 0 -> strings.space_len s = 0.
Proof.
  intros H. destruct (strings.space_len s) as [|k] eqn:E; [reflexivity|].
  rewrite (space_len_prefix s t k E) in H. discriminate.
Qed.

Lemma space2_blank (c1 : ascii) : strings.space2 c1 " " = false.
Proof. unfold strings.space2. apply andb_false_r. Qed.

Lemma space3_blank_2 (c1 c3 : ascii) : strings.space3 c1 " " c3 = false.
Proof.
  unfold strings.space3.
  change (strings.byte_is " " 154) with false.
  change (strings.byte_is " " 128) with false.
  change (strings.byte_is " " 129) with false.
  now rewrite !andb_false_r.
Qed.

Lemma space3_blank_3 (c1 c2 : ascii) : strings.space3 c1 c2 " " = false.
Proof.
  unfold strings.space3.
  change (strings.byte_is " " 128) with false.
  change (strings.byte_is " " 159) with false.
  change (strings.byte_in " " 128 138) with false.
  change (strings.byte_is " " 168) with false.
  change (strings.byte_is " " 169) with false.
  change (strings.byte_is " " 175) with false.
  now rewrite !andb_false_r.
Qed.

Lemma space_len_field_end (b t : string) :
  b <> "" -> strings.space_len b = 0 -> field_end t -> strings.space_len (b ++ t) = 0.
Proof.
  intros Hb H [-> | [t' ->]].
  - now rewrite app_empty_r.
  - destruct b as [|c1 [|c2 [|c3 r]]]; simpl in *; try congruence.
    + destruct (strings.asciiSpace c1); [discriminate|].
      rewrite space2_blank. destruct t'; [reflexivity|].
      now rewrite space3_blank_2.
    + destruct (strings.asciiSpace c1); [discriminate|].
      destruct (strings.space2 c1 c2); [discriminate|].
      now rewrite space3_blank_3.
Qed.

Lemma solid_before_empty (cur s : string) :
  solid_before cur s -> solid_before cur "".
Proof.
  induction cur as [|c cur IH]; simpl; [auto|].
  intros [H1 H2]. split; [|auto].
  rewrite app_empty_r. now apply (space_len_prefix_0 (String c cur) s).
Qed.

Lemma solid_before_end (f t : string) :
  solid_before f "" -> field_end t -> solid_before f t.
Proof.
  induction f as [|c f IH]; simpl; [auto|].
  intros [H1 H2] Ht. split; [|auto].
  rewrite app_empty_r in H1.
  apply (space_len_field_end (String c f) t); [discriminate | assumption | assumption].
Qed.

Lemma solid_before_snoc (cur : string) (c : ascii) (s : string) :
  solid_before cur (String c s) -> strings.space_len (String c s) = 0 ->
  solid_before (cur ++ String c "") s.
Proof.
  induction cur as [|x cur IH]; simpl.
  - intros _ H. auto.
  - intros [H1 H2] H. split; [|auto].
    rewrite app_assoc. exact H1.
Qed.

(** A solid run of bytes goes into the field under collection as it is. *)
Lemma fields_scan_solid (f cur t : string) :
  solid_before f t ->
  strings.fields_scan 0 cur (f ++ t) = strings.fields_scan 0 (cur ++ f) t.
Proof.
  revert cur. induction f as [|c f IH]; intros cur Hf.
  - simpl. now rewrite app_empty_r.
  - destruct Hf as [H1 H2].
    change (String c f ++ t) with (String c (f ++ t)) in *.
    cbn [strings.fields_scan]. rewrite H1.
    rewrite (IH _ H2). now rewrite app_assoc.
Qed.

Lemma fields_scan_blank (cur t : string) :
  strings.fields_scan 0 cur (String " " t) = strings.flush cur (strings.fields_scan 0 "" t).
Proof. reflexivity. Qed.

Lemma Fields_single (f : string) : clean f -> strings.Fields f = [f].
Proof.
  intros [Hne Hs]. unfold strings.Fields.
  rewrite <- (app_empty_r f) at 1.
  rewrite (fields_scan_solid f "" "" Hs). simpl.
  destruct f; [congruence | reflexivity].
Qed.

Lemma Fields_cons (f rest : string) :
  clean f -> strings.Fields (f ++ " " ++ rest) = (f :: strings.Fields rest)%list.
Proof.
  intros [Hne Hs]. unfold strings.Fields.
  rewrite (fields_scan_solid f "" (" " ++ rest)).
  - simpl "++". rewrite fields_scan_blank.
    destruct f; [congruence | reflexivity].
  - apply solid_before_end; [assumption | right; now exists rest].
Qed.

(** Every field that [strings.Fields] returns is clean. *)
Lemma fields_scan_clean (s : string) :
  forall skip cur,
    (skip <> 0 -> cur = "") ->
    (skip = 0 -> solid_before cur s) ->
    Forall clean (strings.fields_scan skip cur s).
Proof.
  induction s as [|c s IH]; intros skip cur Hskip Hcur.
  - simpl. destruct cur as [|x cur]; simpl; [constructor|].
    constructor; [|constructor].
    split; [discriminate|].
    destruct skip; [now apply Hcur | now discriminate (Hskip ltac:(discriminate))].
  - cbn [strings.fields_scan]. destruct skip as [|k].
    + specialize (Hcur eq_refl).
      destruct (strings.space_len (String c s)) as [|k] eqn:E.
      * apply IH; [congruence|]. intros _. now apply solid_before_snoc.
      * assert (Hrest : Forall clean (strings.fields_scan k "" s)).
        { apply IH; [reflexivity | intros _; exact I]. }
        destruct cur as [|x cur]; simpl; [exact Hrest|].
        constructor; [|exact Hrest].
        split; [discriminate|]. now apply (solid_before_empty _ (String c s)).
    + rewrite (Hskip ltac:(discriminate)).
      apply IH; [reflexivity | intros _; exact I].
Qed.

Lemma Fields_clean (s : string) : Forall clean (strings.Fields s).
Proof. apply fields_scan_clean; [congruence | intros _; exact I]. Qed.

End FieldsFacts.

Section DecimalFacts.

Lemma all_bits_spec (f : N -> bool) (bits : nat) :
  forall hi n,
    all_bits f bits hi = true ->
    (hi * 2 ^ N.of_nat bits <= n < (hi + 1) * 2 ^ N.of_nat bits)%N ->
    f n = true.
Proof.
  induction bits as [|b IH]; intros hi n H Hn.
  - simpl in *. replace n with hi by lia. exact H.
  - cbn [all_bits] in H. apply andb_true_iff in H as [H0 H1].
    rewrite Nat2N.inj_succ, N.pow_succ_r' in Hn.
    destruct (N.lt_ge_cases n ((2 * hi + 1) * 2 ^ N.of_nat b)) as [Hlt | Hge].
    + apply (IH (2 * hi)%N); [exact H0 | lia].
    + apply (IH (2 * hi + 1)%N); [exact H1 | lia].
Qed.

Lemma decimal_ok_all : all_bits decimal_ok 16 0 = true.
Proof. vm_compute. reflexivity. Qed.

Lemma decimal_ok_uint16 (n : N) : (n <= 65535)%N -> decimal_ok n = true.
Proof.
  intros Hn. apply (all_bits_spec decimal_ok 16 0 n decimal_ok_all).
  change (2 ^ N.of_nat 16)%N with 65536%N. lia.
Qed.

Lemma ParseUint16_FormatUint (n : N) :
  (n <= 65535)%N -> strconv.ParseUint16 (strconv.FormatUint n) = Some n.
Proof.
  intros Hn. pose proof (decimal_ok_uint16 n Hn) as H. unfold decimal_ok in H.
  apply andb_true_iff in H as [H _]. apply andb_true_iff in H as [H _].
  destruct (strconv.ParseUint16 (strconv.FormatUint n)) as [m|]; [|discriminate].
  apply N.eqb_eq in H. now subst.
Qed.

Lemma ParseUint16_bound (s : string) (n : N) :
  strconv.ParseUint16 s = Some n -> (n <= 65535)%N.
Proof.
  unfold strconv.ParseUint16. destruct s; [discriminate|].
  destruct (strconv.parse_digits 0 (String a s)) as [m|]; [|discriminate].
  destruct (N.leb m 65535) eqn:E; [|discriminate].
  intros H. inversion H; subst. now apply N.leb_le.
Qed.

Lemma digit_not_space (c : ascii) (r : string) :
  is_digit c = true -> strings.space_len (String c r) = 0.
Proof.
  unfold is_digit. intros H. apply andb_true_iff in H as [H1 H2].
  apply N.leb_le in H1, H2.
  assert (Ha : strings.asciiSpace c = false).
  { unfold strings.asciiSpace, strings.byte_in, strings.byte_is.
    apply orb_false_iff. split.
    - apply andb_false_iff. right. apply N.leb_gt. lia.
    - apply N.eqb_neq. lia. }
  assert (Hlead : forall n, (128 <= n)%N -> strings.byte_is c n = false).
  { intros n Hn. unfold strings.byte_is. apply N.eqb_neq. lia. }
  simpl. rewrite Ha. destruct r as [|c2 r]; [reflexivity|].
  unfold strings.space2. rewrite (Hlead 194%N) by lia. simpl.
  destruct r as [|c3 r]; [reflexivity|].
  unfold strings.space3.
  rewrite (Hlead 225%N), (Hlead 226%N), (Hlead 227%N) by lia. reflexivity.
Qed.

Lemma digits_solid (s : string) :
  all_chars is_digit s = true -> solid_before s "".
Proof.
  induction s as [|c s IH]; simpl; [auto|].
  intros H. apply andb_true_iff in H as [Hc Hs]. split; [|auto].
  now apply digit_not_space.
Qed.

Lemma FormatUint_clean (n : N) : (n <= 65535)%N -> clean (strconv.FormatUint n).
Proof.
  intros Hn. pose proof (decimal_ok_uint16 n Hn) as H. unfold decimal_ok in H.
  apply andb_true_iff in H as [H Hne]. apply andb_true_iff in H as [_ Hd].
  split.
  - intros E. rewrite E in Hne. discriminate.
  - now apply digits_solid.
Qed.

End DecimalFacts.
(* ================================================================== *)
(** * Records through [RR()] and [Parse()] *)
(* ================================================================== *)

Section ParseFacts.
Context {P : Platform}.

Lemma qualityRecordNames_spec (record : Record) (zone : string) :
  qualityRecordNames record zone =
  match libdns.Parse (libdns.RR_of record) with
  | Some parsed =>
      if supported_shape parsed
      then with_name parsed (libdns.AbsoluteName (Name_of parsed) zone)
      else record
  | None => record
  end.
Proof.
  unfold qualityRecordNames.
  destruct (libdns.Parse (libdns.RR_of record)) as [[r|a|c|t|m|n|s]|]; reflexivity.
Qed.

Lemma unqualifyRecordNames_spec (record : Record) (zone : string) :
  unqualifyRecordNames record zone =
  match libdns.Parse (libdns.RR_of record) with
  | Some parsed =>
      if supported_shape parsed
      then with_name parsed (libdns.RelativeName (Name_of parsed) zone)
      else record
  | None => record
  end.
Proof.
  unfold unqualifyRecordNames.
  destruct (libdns.Parse (libdns.RR_of record)) as [[r|a|c|t|m|n|s]|]; reflexivity.
Qed.

Lemma Name_of_with_name (record : Record) (name : string) :
  Name_of (with_name record name) = name.
Proof. destruct record; reflexivity. Qed.

Lemma no_dot_CutDot (a : string) : no_dot a -> strings.CutDot a = (a, None).
Proof.
  induction a as [|c a IH]; simpl; [reflexivity|].
  intros [Hc Ha]. now rewrite Hc, (IH Ha).
Qed.

Lemma no_dot_CutDot_app (a b : string) :
  no_dot a -> strings.CutDot (a ++ String "." b) = (a, Some b).
Proof.
  induction a as [|c a IH]; simpl; [reflexivity|].
  intros [Hc Ha]. now rewrite Hc, (IH Ha).
Qed.

Lemma CutDot_no_dot (s : string) : no_dot (fst (strings.CutDot s)).
Proof.
  induction s as [|c s IH]; simpl; [exact I|].
  destruct (Ascii.eqb c ".") eqn:E; simpl; [exact I|].
  destruct (strings.CutDot s) as [a b]. simpl in *. split; assumption.
Qed.

Lemma TrimPrefix_underscore (s : string) :
  strings.TrimPrefix s "_" =
  match s with
  | String c s' => if Ascii.eqb c "_" then s' else s
  | EmptyString => EmptyString
  end.
Proof.
  destruct s as [|c s]; [reflexivity|].
  unfold strings.TrimPrefix. cbn [strings.HasPrefix].
  destruct (Ascii.eqb c "_"); [|reflexivity].
  destruct s; simpl; [reflexivity|].
  f_equal. apply substring_all.
Qed.

Lemma no_dot_TrimPrefix (s : string) : no_dot s -> no_dot (strings.TrimPrefix s "_").
Proof.
  intros H. rewrite TrimPrefix_underscore. destruct s as [|c s]; [exact I|].
  destruct (Ascii.eqb c "_"); [apply H | exact H].
Qed.

(** The name [SRV.RR()] prints splits back into its three parts. *)
Lemma SplitNDot_srv (service transport name : string) :
  no_dot service -> no_dot transport ->
  strings.SplitNDot 3 ("_" ++ service ++ "._" ++ transport ++ "." ++ name)
  = ["_" ++ service; "_" ++ transport; name].
Proof.
  intros Hs Ht.
  assert (Hs' : no_dot ("_" ++ service)) by (split; [reflexivity | exact Hs]).
  assert (Ht' : no_dot ("_" ++ transport)) by (split; [reflexivity | exact Ht]).
  change ("_" ++ service ++ "._" ++ transport ++ "." ++ name)
    with (("_" ++ service) ++ String "." (("_" ++ transport) ++ String "." name)).
  cbn [strings.SplitNDot].
  rewrite (no_dot_CutDot_app _ _ Hs'), (no_dot_CutDot_app _ _ Ht'). reflexivity.
Qed.

Lemma SplitNDot_srv_root (service transport : string) :
  no_dot service -> no_dot transport ->
  strings.SplitNDot 3 ("_" ++ service ++ "._" ++ transport)
  = ["_" ++ service; "_" ++ transport].
Proof.
  intros Hs Ht.
  assert (Hs' : no_dot ("_" ++ service)) by (split; [reflexivity | exact Hs]).
  assert (Ht' : no_dot ("_" ++ transport)) by (split; [reflexivity | exact Ht]).
  change ("_" ++ service ++ "._" ++ transport)
    with (("_" ++ service) ++ String "." ("_" ++ transport)).
  cbn [strings.SplitNDot].
  rewrite (no_dot_CutDot_app _ _ Hs'), (no_dot_CutDot _ Ht'). reflexivity.
Qed.

End ParseFacts.

Section ParseStable.
Context {P : Platform}.

Lemma Forall_clean_2 (s a b : string) :
  strings.Fields s = [a; b] -> clean a /\ clean b.
Proof.
  intros H. pose proof (Fields_clean s) as Hc. rewrite H in Hc.
  inversion Hc as [|? ? Ha Hc']; subst. inversion Hc' as [|? ? Hb _]; subst. auto.
Qed.

Lemma Forall_clean_4 (s a b c d : string) :
  strings.Fields s = [a; b; c; d] -> clean d.
Proof.
  intros H. pose proof (Fields_clean s) as Hc. rewrite H in Hc.
  repeat match goal with
         | H : Forall _ (_ :: _) |- _ => inversion H; clear H; subst
         end.
  assumption.
Qed.

Lemma SplitNDot_first_no_dot (s p0 : string) (rest : list string) :
  strings.SplitNDot 3 s = p0 :: rest -> no_dot p0.
Proof.
  cbn [strings.SplitNDot]. pose proof (CutDot_no_dot s) as H.
  destruct (strings.CutDot s) as [a [b|]]; simpl in H; intros E; inversion E; now subst.
Qed.

Lemma SplitNDot_second_no_dot (s p0 p1 : string) (rest : list string) :
  strings.SplitNDot 3 s = p0 :: p1 :: rest -> no_dot p1.
Proof.
  cbn [strings.SplitNDot].
  destruct (strings.CutDot s) as [a [b|]]; [|discriminate].
  pose proof (CutDot_no_dot b) as H.
  destruct (strings.CutDot b) as [a' [b'|]]; simpl in H; intros E; inversion E; now subst.
Qed.

Lemma Fields_cons_blank (f rest : string) :
  clean f -> strings.Fields (f ++ String " " rest) = f :: strings.Fields rest.
Proof. apply Fields_cons. Qed.

(** What [Parse] returns is canonical. *)
Lemma Parse_canonical {L : PlatformLaws P} (r : RR.t) (parsed : Record) :
  libdns.Parse r = Some parsed -> canonical parsed.
Proof.
  unfold libdns.Parse.
  destruct (String.eqb (RR.Type_ r) "A" || String.eqb (RR.Type_ r) "AAAA").
  { unfold libdns.toAddress. destruct (ParseAddr (RR.Data r)) as [ip|] eqn:E; [|discriminate].
    intros H. inversion H; subst. simpl. now apply (ParseAddr_String (RR.Data r)). }
  destruct (String.eqb (RR.Type_ r) "CNAME").
  { intros H. inversion H; subst. exact I. }
  destruct (String.eqb (RR.Type_ r) "MX").
  { unfold libdns.toMX.
    destruct (strings.Fields (RR.Data r)) as [|f0 [|f1 [|f2 l]]] eqn:E; try discriminate.
    destruct (strconv.ParseUint16 f0) as [p|] eqn:Ep; [|discriminate].
    intros H. inversion H; subst. simpl. split.
    - now apply (ParseUint16_bound f0).
    - now apply (Forall_clean_2 _ _ _ E). }
  destruct (String.eqb (RR.Type_ r) "NS").
  { intros H. inversion H; subst. exact I. }
  destruct (String.eqb (RR.Type_ r) "SRV").
  { unfold libdns.toSRV.
    destruct (strings.Fields (RR.Data r)) as [|f0 [|f1 [|f2 [|f3 [|f4 l]]]]] eqn:E;
      try discriminate.
    destruct (strings.SplitNDot 3 (RR.Name r)) as [|p0 [|p1 rest]] eqn:En; try discriminate.
    destruct (strconv.ParseUint16 f0) as [pr|] eqn:E0; [|discriminate].
    destruct (strconv.ParseUint16 f1) as [we|] eqn:E1; [|discriminate].
    destruct (strconv.ParseUint16 f2) as [po|] eqn:E2; [|discriminate].
    intros H. inversion H; subst. simpl.
    repeat split.
    - apply no_dot_TrimPrefix. now apply (SplitNDot_first_no_dot _ _ _ En).
    - apply no_dot_TrimPrefix. now apply (SplitNDot_second_no_dot _ _ _ _ En).
    - now apply (ParseUint16_bound f0).
    - now apply (ParseUint16_bound f1).
    - now apply (ParseUint16_bound f2).
    - apply (Forall_clean_4 _ _ _ _ _ E).
    - apply (Forall_clean_4 _ _ _ _ _ E). }
  destruct (String.eqb (RR.Type_ r) "TXT").
  { intros H. inversion H; subst. exact I. }
  intros H. inversion H; subst. exact I.
Qed.

(** A canonical record of a supported shape, under any name, prints as an
    [RR] that parses back to it. *)
Lemma Parse_with_name (record : Record) (name : string) :
  canonical record -> supported_shape record = true ->
  libdns.Parse (libdns.RR_of (with_name record name)) = Some (with_name record name).
Proof.
  destruct record as [r|a|c|t|m|n|s]; simpl canonical; intros Hc Hs;
    try discriminate; try reflexivity.
  - (* Address *)
    unfold libdns.Parse. simpl.
    assert (Ht : String.eqb (if Addr_Is6 (Address.IP a) then "AAAA" else "A") "A"
                 || String.eqb (if Addr_Is6 (Address.IP a) then "AAAA" else "A") "AAAA"
                 = true) by (destruct (Addr_Is6 (Address.IP a)); reflexivity).
    rewrite Ht. unfold libdns.toAddress. simpl. now rewrite Hc.
  - (* MX *)
    destruct Hc as [Hp Ht].
    unfold libdns.Parse. simpl. unfold libdns.toMX. simpl.
    rewrite (Fields_cons_blank _ _ (FormatUint_clean _ Hp)), (Fields_single _ Ht).
    now rewrite (ParseUint16_FormatUint _ Hp).
  - (* SRV *)
    destruct Hc as (Hsv & Htr & Hpr & Hwe & Hpo & Hta).
    unfold libdns.Parse. simpl. unfold libdns.toSRV. simpl RR.Data. simpl RR.Name.
    rewrite (Fields_cons_blank _ _ (FormatUint_clean _ Hpr)).
    rewrite (Fields_cons_blank _ _ (FormatUint_clean _ Hwe)).
    rewrite (Fields_cons_blank _ _ (FormatUint_clean _ Hpo)).
    rewrite (Fields_single _ Hta).
    rewrite (ParseUint16_FormatUint _ Hpr), (ParseUint16_FormatUint _ Hwe),
      (ParseUint16_FormatUint _ Hpo).
    destruct (String.eqb name "@") eqn:E.
    + apply String.eqb_eq in E. subst name.
      pose proof (SplitNDot_srv_root _ _ Hsv Htr) as HS.
      cbn [append] in HS. rewrite HS.
      rewrite !TrimPrefix_underscore. reflexivity.
    + pose proof (SplitNDot_srv _ _ name Hsv Htr) as HS.
      cbn [append] in HS. rewrite HS.
      rewrite !TrimPrefix_underscore. reflexivity.
Qed.

(** [Parse] after [RR()] keeps the shape and the name of a record that
    has one of the six shapes. *)
Lemma Parse_RR_of_name (record parsed : Record) :
  supported_shape record = true -> single_labels record ->
  libdns.Parse (libdns.RR_of record) = Some parsed ->
  supported_shape parsed = true /\ Name_of parsed = Name_of record.
Proof.
  destruct record as [r|a|c|t|m|n|s]; simpl single_labels; intros Hs Hl;
    try discriminate.
  - unfold libdns.Parse. simpl.
    assert (Ht : String.eqb (if Addr_Is6 (Address.IP a) then "AAAA" else "A") "A"
                 || String.eqb (if Addr_Is6 (Address.IP a) then "AAAA" else "A") "AAAA"
                 = true) by (destruct (Addr_Is6 (Address.IP a)); reflexivity).
    rewrite Ht. unfold libdns.toAddress. simpl.
    destruct (ParseAddr (Addr_String (Address.IP a))); [|discriminate].
    intros H; inversion H; subst. auto.
  - intros H; inversion H; subst. auto.
  - intros H; inversion H; subst. auto.
  - unfold libdns.Parse. simpl. unfold libdns.toMX. simpl.
    destruct (strings.Fields _) as [|f0 [|f1 [|f2 l]]]; try discriminate.
    destruct (strconv.ParseUint16 f0); [|discriminate].
    intros H; inversion H; subst. auto.
  - intros H; inversion H; subst. auto.
  - destruct Hl as [Hsv Htr].
    unfold libdns.Parse. simpl. unfold libdns.toSRV. simpl RR.Data. simpl RR.Name.
    destruct (strings.Fields _) as [|f0 [|f1 [|f2 [|f3 [|f4 l]]]]]; try discriminate.
    destruct (String.eqb (SRV.Name s) "@") eqn:E.
    + apply String.eqb_eq in E.
      pose proof (SplitNDot_srv_root _ _ Hsv Htr) as HS.
      cbn [append] in HS. rewrite HS.
      destruct (strconv.ParseUint16 f0); [|discriminate].
      destruct (strconv.ParseUint16 f1); [|discriminate].
      destruct (strconv.ParseUint16 f2); [|discriminate].
      intros H; inversion H; subst. simpl. auto.
    + pose proof (SplitNDot_srv _ _ (SRV.Name s) Hsv Htr) as HS.
      cbn [append] in HS. rewrite HS.
      destruct (strconv.ParseUint16 f0); [|discriminate].
      destruct (strconv.ParseUint16 f1); [|discriminate].
      destruct (strconv.ParseUint16 f2); [|discriminate].
      intros H; inversion H; subst. simpl. auto.
Qed.

End ParseStable.

(* ================================================================== *)
(** * Qualifying and unqualifying *)
(* ================================================================== *)

Lemma sample_laws : PlatformLaws sample.platform.
Proof.
  constructor. simpl. unfold sample.parse_addr. intros s ip H.
  destruct s as [|c s]; [discriminate|].
  destruct (all_chars sample.addr_char (String c s)) eqn:E; [|discriminate].
  inversion H; subst. now rewrite E.
Qed.

Section RoundTrip.
Context {P : Platform} {L : PlatformLaws P}.

Lemma supported_with_name (record : Record) (name : string) :
  supported_shape (with_name record name) = supported_shape record.
Proof. destruct record; reflexivity. Qed.

(** A record that [Parse] returned, under any name, is unqualified by
    rewriting that name. *)
Lemma unqualify_parsed (r : RR.t) (parsed : Record) (name zone : string) :
  libdns.Parse r = Some parsed -> supported_shape parsed = true ->
  unqualifyRecordNames (with_name parsed name) zone
  = with_name parsed (libdns.RelativeName name zone).
Proof.
  intros Hp Hs. rewrite unqualifyRecordNames_spec.
  rewrite (Parse_with_name parsed name (Parse_canonical r parsed Hp) Hs).
  rewrite supported_with_name, Hs, Name_of_with_name.
  destruct parsed; reflexivity.
Qed.

(** C2, as the code has it. For a record of one of the six supported
    shapes whose name is zone-relative, and which, if it is an SRV
    record, names its service and its transport by one label each,
    qualifying it against a zone and unqualifying the result against the
    same zone returns a record with the original name. *)
Theorem qualify_unqualify_name (record : Record) (zone : string) :
  supported_shape record = true ->
  single_labels record ->
  relative_name (Name_of record) ->
  zone <> "" ->
  Name_of (unqualifyRecordNames (qualityRecordNames record zone) zone) = Name_of record.
Proof.
  intros Hs Hl Hn Hz. rewrite qualityRecordNames_spec.
  destruct (libdns.Parse (libdns.RR_of record)) as [parsed|] eqn:E.
  - destruct (Parse_RR_of_name record parsed Hs Hl E) as [Hs' Hname].
    rewrite Hs'.
    rewrite (unqualify_parsed _ parsed _ zone E Hs').
    rewrite Name_of_with_name, Hname.
    now apply RelativeName_AbsoluteName.
  - rewrite unqualifyRecordNames_spec, E. reflexivity.
Qed.

End RoundTrip.

Lemma qualify_unqualify_name_witness :
  Name_of (P := sample.platform)
    (unqualifyRecordNames
       (qualityRecordNames
          (RecSRV (SRV.mk "sip" "tcp" "www" 300000000000 10 20 5060 "pbx.example.net."))
          "example.com.")
       "example.com.")
  = "www".
Proof.
  apply (@qualify_unqualify_name sample.platform sample_laws
           (RecSRV (SRV.mk "sip" "tcp" "www" 300000000000 10 20 5060 "pbx.example.net."))
           "example.com.").
  - reflexivity.
  - simpl. repeat split.
  - split; [discriminate | reflexivity].
  - discriminate.
Defined.

(** C2, as stated, fails. An SRV record with the service [a.b], the
    transport [tcp] and the zone-relative name [www] comes back from
    qualifying and unqualifying under the name [_tcp.www], as a record of
    the service [a] and the transport [b]: its [RR] name [_a.b._tcp.www]
    is split at its first two dots. *)
Lemma SRV_dotted_service_name_lost :
  unqualifyRecordNames (P := sample.platform)
    (qualityRecordNames
       (RecSRV (SRV.mk "a.b" "tcp" "www" 300000000000 10 20 5060 "pbx.example.net."))
       "example.com.")
    "example.com."
  = RecSRV (SRV.mk "a" "b" "_tcp.www" 300000000000 10 20 5060 "pbx.example.net.")
  /\ String.eqb "_tcp.www" "www" = false
  /\ strings.HasSuffix "www" "." = false.
Proof. repeat split. Qed.

(* ================================================================== *)
(** * The loops of the adapter *)
(* ================================================================== *)

Section LoopFacts.
Context {P : Platform} {St : Type} {cli : Client St}.

Lemma store_map {A} (f : A -> A) (done todo : list A) (x : A) :
  store (done ++ x :: todo)%list (List.length done) (f x) = (done ++ f x :: todo)%list.
Proof. induction done as [|y done IH]; simpl; [reflexivity | now rewrite IH]. Qed.

Lemma update_from_map {A} (f : A -> A) (todo done : list A) :
  update_from f (List.length done) (List.length todo) (done ++ todo)%list
  = (done ++ map f todo)%list.
Proof.
  revert done. induction todo as [|x todo IH]; intros done; simpl; [reflexivity|].
  rewrite nth_error_app2 by lia. rewrite Nat.sub_diag. simpl.
  rewrite store_map.
  replace (done ++ f x :: todo)%list with ((done ++ [f x]) ++ todo)%list
    by now rewrite <- List.app_assoc.
  replace (S (List.length done)) with (List.length (done ++ [f x])%list)
    by (rewrite List.length_app; simpl; lia).
  rewrite IH. now rewrite <- List.app_assoc.
Qed.

(** Overwriting every element in place leaves the mapped slice. *)
Lemma update_each_map {A} (f : A -> A) (records : list A) :
  update_each f records = map f records.
Proof. exact (update_from_map f records []). Qed.

Lemma qualify_records_run (zone : string) (w : World St) :
  qualify_records zone w = (Ok tt, qualified zone w).
Proof. unfold qualify_records, qualified. now rewrite update_each_map. Qed.

(** ** The recordsByType map *)

Lemma map_get_set (m : list (string * list Record)) (k k' : string) (v : list Record) :
  map_get (map_set m k v) k' = if String.eqb k k' then v else map_get m k'.
Proof.
  unfold map_get. induction m as [|[k0 v0] m IH]; simpl.
  - destruct (String.eqb k k'); reflexivity.
  - destruct (String.eqb k0 k) eqn:E0; simpl.
    + apply String.eqb_eq in E0. subst k0.
      destruct (String.eqb k k'); reflexivity.
    + destruct (String.eqb k0 k') eqn:E1.
      * apply String.eqb_eq in E1. subst k0.
        rewrite String.eqb_sym in E0. now rewrite E0.
      * exact IH.
Qed.

Lemma group_fold_get (records : list Record) :
  forall (m : list (string * list Record)) (seen : list Record),
    (forall ty, map_get m ty = of_type ty seen) ->
    forall ty,
      map_get
        (fold_left
           (fun m record =>
              let ty := RR.Type_ (libdns.RR_of record) in
              map_set m ty (map_get m ty ++ [record])%list)
           records m) ty
      = of_type ty (seen ++ records)%list.
Proof.
  induction records as [|r records IH]; intros m seen Hm ty; simpl.
  - now rewrite List.app_nil_r.
  - replace (seen ++ r :: records)%list with ((seen ++ [r]) ++ records)%list
      by now rewrite <- List.app_assoc.
    apply IH. intros ty'. rewrite map_get_set.
    unfold of_type. rewrite filter_app. simpl.
    destruct (String.eqb (RR.Type_ (libdns.RR_of r)) ty') eqn:E.
    + apply String.eqb_eq in E. subst ty'. now rewrite Hm.
    + rewrite List.app_nil_r. apply Hm.
Qed.

(** A key of [recordsByType] holds the records of that type, in the
    order of the batch. *)
Lemma group_by_type_get (records : list Record) (ty : string) :
  map_get (group_by_type records) ty = of_type ty records.
Proof. exact (group_fold_get records [] [] (fun _ => eq_refl) ty). Qed.

Lemma in_plan (order : list string) (records : list Record) (record : Record) :
  In record (plan order records) -> In record records.
Proof.
  unfold plan. intros H. apply in_concat in H as (l & Hl & Hr).
  apply in_map_iff in Hl as (ty & <- & _).
  unfold of_type in Hr. now apply filter_In in Hr.
Qed.

(** A batch of one type is gone through in its own order. *)
Lemma plan_one_type (ty : string) (records : list Record) :
  Forall (fun record => RR.Type_ (libdns.RR_of record) = ty) records ->
  plan [ty] records = records.
Proof.
  intros H. unfold plan. simpl. rewrite List.app_nil_r.
  unfold of_type. induction H as [|r records Hr _ IH]; simpl; [reflexivity|].
  rewrite Hr, String.eqb_refl. now rewrite IH.
Qed.

(** ** Loops as [run_steps] *)

Lemma append_records_steps (zone ty : string) (records acc : list Record) :
  append_records zone ty records acc = run_steps (append_one zone ty) records acc.
Proof.
  revert acc. induction records as [|r records IH]; intros acc; simpl; [reflexivity|].
  unfold bind. now rewrite IH.
Qed.

Lemma set_records_steps (zone : string) (records acc : list Record) :
  set_records zone records acc = run_steps (set_one zone) records acc.
Proof.
  revert acc. induction records as [|r records IH]; intros acc; simpl; [reflexivity|].
  unfold bind. now rewrite IH.
Qed.

Lemma delete_records_steps (zone : string) (records acc : list Record) :
  delete_records zone records acc = run_steps (delete_one zone) records acc.
Proof.
  revert acc. induction records as [|r records IH]; intros acc; simpl; [reflexivity|].
  unfold bind. now rewrite IH.
Qed.

Lemma run_steps_ext (f g : Record -> M St unit) (records : list Record) :
  (forall record w, In record records -> f record w = g record w) ->
  forall acc w, run_steps f records acc w = run_steps g records acc w.
Proof.
  induction records as [|r records IH]; intros H acc w; simpl; [reflexivity|].
  unfold bind. rewrite (H r w) by now left.
  destruct (g r w) as [[[]|e|] w1]; try reflexivity.
  apply IH. intros r' w' Hin. apply H. now right.
Qed.

Lemma run_steps_app (step : Record -> M St unit) (pre post acc : list Record)
      (w : World St) :
  run_steps step (pre ++ post)%list acc w
  = (added <- run_steps step pre acc ;; run_steps step post added) w.
Proof.
  revert acc w. induction pre as [|r pre IH]; intros acc w; simpl.
  - reflexivity.
  - unfold bind.
    destruct (step r w) as [[[]|e|] w1]; try reflexivity.
    rewrite IH. reflexivity.
Qed.

(** A loop that ends well returns the records it went through. *)
Lemma run_steps_ok (step : Record -> M St unit) (records acc added : list Record)
      (w w' : World St) :
  run_steps step records acc w = (Ok added, w') -> added = (acc ++ records)%list.
Proof.
  revert acc w. induction records as [|r records IH]; intros acc w; simpl.
  - unfold ret. intros H. inversion H. now rewrite List.app_nil_r.
  - unfold bind. destruct (step r w) as [[[]|e|] w1]; try discriminate.
    intros H. apply IH in H. now rewrite <- List.app_assoc in H.
Qed.

End LoopFacts.

Section PlanFacts.
Context {P : Platform}.

Lemma filter_split {A} (f : A -> bool) (l : list A) :
  Permutation.Permutation (filter f l ++ filter (fun x => negb (f x)) l)%list l.
Proof.
  induction l as [|x l IH]; simpl; [constructor|].
  destruct (f x); simpl.
  - now constructor.
  - apply Permutation.Permutation_sym.
    apply Permutation.Permutation_cons_app. now apply Permutation.Permutation_sym.
Qed.

Lemma of_type_other (ty ty' : string) (records : list Record) :
  ty' <> ty ->
  of_type ty' (filter (fun r => negb (String.eqb (RR.Type_ (libdns.RR_of r)) ty)) records)
  = of_type ty' records.
Proof.
  intros Hne. unfold of_type. induction records as [|r records IH]; simpl; [reflexivity|].
  destruct (String.eqb (RR.Type_ (libdns.RR_of r)) ty) eqn:E; simpl.
  - apply String.eqb_eq in E.
    assert (E' : String.eqb (RR.Type_ (libdns.RR_of r)) ty' = false)
      by (apply String.eqb_neq; congruence).
    now rewrite E'.
  - now rewrite IH.
Qed.

(** Whatever order the run-time picks for the keys, the batch is gone
    through record by record, each record once. *)
Lemma plan_key_order (order : list string) :
  forall records, key_order records order ->
                  Permutation.Permutation (plan order records) records.
Proof.
  induction order as [|ty order IH]; intros records [Hnd Hkeys].
  - destruct records as [|r records]; [constructor|].
    exfalso. apply (proj2 (Hkeys (RR.Type_ (libdns.RR_of r)))). now left.
  - inversion Hnd as [|? ? Hnotin Hnd']; subst.
    set (rest := filter (fun r => negb (String.eqb (RR.Type_ (libdns.RR_of r)) ty)) records).
    assert (Hrest : key_order rest order).
    { split; [exact Hnd'|]. intros ty'. split.
      - intros Hin.
        assert (Hne : ty' <> ty) by (intros ->; contradiction).
        pose proof (proj1 (Hkeys ty') (or_intror Hin)) as Hin'.
        apply in_map_iff in Hin' as (r & Hr & Hinr).
        apply in_map_iff. exists r. split; [exact Hr|].
        apply filter_In. split; [exact Hinr|].
        apply negb_true_iff. apply String.eqb_neq. congruence.
      - intros Hin. apply in_map_iff in Hin as (r & Hr & Hinr).
        apply filter_In in Hinr as [Hinr Hne].
        apply negb_true_iff in Hne. apply String.eqb_neq in Hne.
        destruct (proj2 (Hkeys ty')) as [Heq | Hin'];
          [apply in_map_iff; now exists r | congruence | exact Hin']. }
    assert (Hplan : plan order records = plan order rest).
    { unfold plan. f_equal. apply map_ext_in. intros ty' Hin.
      symmetry. apply of_type_other. intros ->. contradiction. }
    unfold plan. cbn [map concat]. fold (plan order records). rewrite Hplan.
    eapply Permutation.Permutation_trans;
      [apply Permutation.Permutation_app_head; apply (IH rest Hrest)|].
    apply filter_split.
Qed.

End PlanFacts.

Section StepFacts.
Context {P : Platform} {St : Type} {cli : Client St}.

Ltac run_calls :=
  repeat match goal with
         | |- context [cli_RRSet ?z ?n ?t ?c] =>
             destruct (cli_RRSet z n t c) as [[?err|?rrSet] ?c1] eqn:?
         | |- context [cli_UpdateRRSet ?z ?n ?t ?s ?c] =>
             destruct (cli_UpdateRRSet z n t s c) as [[?err|] ?c2] eqn:?
         | |- context [cli_DeleteRRSetRecord ?z ?n ?t ?d ?c] =>
             destruct (cli_DeleteRRSetRecord z n t d c) as [[?err|] ?c1] eqn:?
         | |- context [strings.Contains ?a ?b] =>
             destruct (strings.Contains a b) eqn:?
         end.

Ltac confined_step :=
  intros record w o w';
  unfold bind, call_RRSet, call_UpdateRRSet, call_DeleteRRSetRecord, log, ret, fail;
  simpl; run_calls; simpl;
  intros H; inversion H; subst; clear H; simpl;
  (split; [reflexivity|]);
  rewrite <- ?List.app_assoc; simpl;
  eexists; (split; [reflexivity|]);
  repeat constructor.

Lemma append_one_confined (zone ty : string) :
  forall record w o w',
    append_one zone ty record w = (o, w') ->
    ty = RR.Type_ (libdns.RR_of record) ->
    caller_records w' = caller_records w /\
    exists evs, trace w' = (trace w ++ evs)%list /\ Forall (about record) evs.
Proof.
  intros record w o w' H Hty. revert H. unfold append_one.
  unfold bind, call_RRSet, call_UpdateRRSet, log, ret, fail; simpl.
  run_calls; simpl; intros H; inversion H; subst o w'; clear H; simpl;
    (split; [reflexivity|]);
    rewrite <- ?List.app_assoc; simpl;
    eexists; (split; [reflexivity|]);
    repeat constructor; auto.
Qed.

Lemma append_step_confined (zone : string) : confined (append_step zone).
Proof.
  intros record w o w' H. unfold append_step in H.
  now apply (append_one_confined zone _ record w o w' H).
Qed.

Lemma set_one_confined (zone : string) : confined (set_one zone).
Proof. unfold confined, set_one. confined_step. Qed.

Lemma delete_one_confined (zone : string) : confined (delete_one zone).
Proof. unfold confined, delete_one. confined_step. Qed.

(** A loop of confined steps leaves the caller's slice alone, and calls
    the client about the records it goes through only. *)
Lemma run_steps_confined (step : Record -> M St unit) :
  confined step ->
  forall records acc w o w',
    run_steps step records acc w = (o, w') ->
    caller_records w' = caller_records w /\
    exists evs, trace w' = (trace w ++ evs)%list /\
                Forall (fun ev => exists record, In record records /\ about record ev) evs.
Proof.
  intros Hstep. induction records as [|r records IH]; intros acc w o w'; simpl.
  - unfold ret. intros H. inversion H; subst. split; [reflexivity|].
    exists []. split; [now rewrite List.app_nil_r | constructor].
  - unfold bind. destruct (step r w) as [o1 w1] eqn:E1.
    destruct (Hstep r w o1 w1 E1) as (Hc1 & evs1 & Ht1 & Ha1).
    assert (Hhead : Forall (fun ev => exists record, In record (r :: records) /\ about record ev)
                           evs1).
    { eapply Forall_impl; [|exact Ha1]. intros ev Hev. exists r. split; [now left | exact Hev]. }
    destruct o1 as [[]|e|].
    + intros H. destruct (IH _ _ _ _ H) as (Hc2 & evs2 & Ht2 & Ha2).
      split; [congruence|].
      exists (evs1 ++ evs2)%list. split.
      * rewrite Ht2, Ht1. now rewrite List.app_assoc.
      * apply Forall_app. split; [exact Hhead|].
        eapply Forall_impl; [|exact Ha2].
        intros ev (r' & Hin & Hab). exists r'. split; [now right | exact Hab].
    + intros H. inversion H; subst. split; [exact Hc1|]. now exists evs1.
    + intros H. inversion H; subst. split; [exact Hc1|]. now exists evs1.
Qed.

(** ** The batch calls, unfolded *)

Lemma append_types_plan (zone : string) (records : list Record) (order : list string) :
  forall acc w,
    append_types zone (group_by_type records) order acc w
    = run_steps (append_step zone) (plan order records) acc w.
Proof.
  induction order as [|ty order IH]; intros acc w; [reflexivity|].
  cbn [append_types]. unfold plan. cbn [map concat]. fold (plan order records).
  rewrite run_steps_app. unfold bind.
  rewrite group_by_type_get, append_records_steps.
  rewrite (run_steps_ext (append_one zone ty) (append_step zone) (of_type ty records)).
  - destruct (run_steps (append_step zone) (of_type ty records) acc w) as [[added|e|] w1];
      [apply IH | reflexivity | reflexivity].
  - intros record w0 Hin. unfold of_type in Hin. apply filter_In in Hin as [_ Hty].
    apply String.eqb_eq in Hty. unfold append_step. now rewrite Hty.
Qed.

Lemma AppendRecords_run (zone : string) (order : list string) (w : World St) :
  AppendRecords zone order w
  = finish zone (run_steps (append_step zone)
                           (plan order (caller_records (qualified zone w))) []
                           (qualified zone w)).
Proof.
  unfold AppendRecords, bind at 1. rewrite qualify_records_run.
  unfold bind, read_records. rewrite append_types_plan.
  destruct (run_steps _ _ _ _) as [[added|e|] w1]; simpl; try reflexivity.
  unfold ret. now rewrite update_each_map.
Qed.

Lemma SetRecords_run (zone : string) (w : World St) :
  SetRecords zone w
  = finish zone (run_steps (set_one zone) (caller_records (qualified zone w)) []
                           (qualified zone w)).
Proof.
  unfold SetRecords, bind at 1. rewrite qualify_records_run.
  unfold bind, read_records. rewrite set_records_steps.
  destruct (run_steps _ _ _ _) as [[added|e|] w1]; simpl; try reflexivity.
  unfold ret. now rewrite update_each_map.
Qed.

Lemma DeleteRecords_run (zone : string) (w : World St) :
  DeleteRecords zone w
  = finish zone (run_steps (delete_one zone) (caller_records (qualified zone w)) []
                           (qualified zone w)).
Proof.
  unfold DeleteRecords, bind at 1. rewrite qualify_records_run.
  unfold bind, read_records. rewrite delete_records_steps.
  destruct (run_steps _ _ _ _) as [[added|e|] w1]; simpl; try reflexivity.
  unfold ret. now rewrite update_each_map.
Qed.

End StepFacts.

(* ================================================================== *)
(** * Merging a value into a fetched set *)
(* ================================================================== *)

Section MergeFacts.

Lemma merge_loop_spec (data : string) (ranged records : list ResourceRecord.t) :
  merge_loop ranged data records
  = (records ++ repeat (new_entry data) (others data ranged))%list.
Proof.
  revert records. induction ranged as [|rr ranged IH]; intros records; simpl.
  - now rewrite List.app_nil_r.
  - unfold others. simpl. destruct (String.eqb (ContentToString rr) data); simpl.
    + apply IH.
    + rewrite IH. now rewrite <- List.app_assoc.
Qed.

(** The merge loop adds the value once for every entry that holds another
    value. *)
Lemma merge_spec (rrSet : RRSet.t) (data : string) :
  RRSet.Records (merge rrSet data)
  = (RRSet.Records rrSet
     ++ repeat (new_entry data) (others data (RRSet.Records rrSet)))%list.
Proof. apply merge_loop_spec. Qed.

(** A set that holds the value and nothing else is pushed back as it is. *)
Lemma merge_only_value (rrSet : RRSet.t) (data : string) :
  Forall (fun rr => ContentToString rr = data) (RRSet.Records rrSet) ->
  merge rrSet data = rrSet.
Proof.
  intros H. destruct rrSet as [ty ttl records]. unfold merge. simpl in *. f_equal.
  rewrite merge_loop_spec.
  replace (others data records) with 0; [apply List.app_nil_r|].
  unfold others. induction H as [|rr records Hrr _ IH]; simpl; [reflexivity|].
  rewrite Hrr, String.eqb_refl. simpl. exact IH.
Qed.

End MergeFacts.

(** C1, on the code.  The vendor holds the values [a] and [b] for
    [www.example.com.], type TXT.  Appending or setting a record with the
    value [a], which the fetched set already holds, pushes the set back
    with a second entry for [a]: the merge loop adds the value once for
    every entry that holds another value. *)
Theorem present_value_added_again :
  let fetched :=
    RRSet.mk "TXT" 300 [ResourceRecord.mk ["a"] true; ResourceRecord.mk ["b"] true] in
  let pushed :=
    RRSet.mk "TXT" 300 [ResourceRecord.mk ["a"] true; ResourceRecord.mk ["b"] true;
                        ResourceRecord.mk ["a"] true] in
  let st : sample.Store := [(("www.example.com.", "TXT"), fetched)] in
  let record := RecTXT (P := sample.platform) (TXT.mk "www" 300000000000 "a") in
  trace (snd (AppendRecords (cli := sample.vendor) "example.com." ["TXT"]
                            (sample.world st [record])))
  = [EvRRSet "example.com." "www.example.com." "TXT" (inr fetched);
     EvUpdateRRSet "example.com." "www.example.com." "TXT" pushed None]
  /\ trace (snd (SetRecords (cli := sample.vendor) "example.com."
                            (sample.world st [record])))
     = [EvRRSet "example.com." "www.example.com." "TXT" (inr fetched);
        EvUpdateRRSet "example.com." "www.example.com." "TXT" pushed None].
Proof. split; reflexivity. Qed.

(** Appending the same record twice: the second call finds the one entry
    the first call created and pushes the set back with that one entry. *)
Example append_twice_one_entry :
  let record := RecRR (P := sample.platform) (RR.mk "www" 300000000000 "A" "1.2.3.4") in
  let once :=
    snd (AppendRecords (cli := sample.vendor) "example.com." ["A"]
                       (sample.world [] [record])) in
  let twice :=
    snd (AppendRecords (cli := sample.vendor) "example.com." ["A"]
                       (sample.world (client once) [record])) in
  client twice
  = [(("www.example.com.", "A"), RRSet.mk "A" 300 [ResourceRecord.mk ["1.2.3.4"] true])].
Proof. reflexivity. Qed.

(* ================================================================== *)
(** * [AppendRecords]: a name and type the vendor has no set for *)
(* ================================================================== *)

Section AppendFacts.
Context {P : Platform} {St : Type} {cli : Client St}.

Lemma run_steps_reach (step : Record -> M St unit)
      (pre post : list Record) (record : Record) (acc added : list Record)
      (w w1 : World St) :
  run_steps step pre acc w = (Ok added, w1) ->
  run_steps step (pre ++ record :: post)%list acc w
  = (step record ;;; run_steps step post (added ++ [record])%list) w1.
Proof.
  intros Hpre. rewrite run_steps_app. unfold bind at 1. rewrite Hpre. reflexivity.
Qed.

Lemma finish_In (zone : string) (record : Record) (post acc : list Record)
      (step : Record -> M St unit) (w : World St) (rs : list Record) (w' : World St) :
  finish zone (run_steps step post (acc ++ [record])%list w) = (Ok rs, w') ->
  In (unqualifyRecordNames record zone) rs.
Proof.
  destruct (run_steps step post (acc ++ [record])%list w) as [[added|e|] w2] eqn:E;
    simpl; intros H; inversion H; subst.
  apply run_steps_ok in E. subst added.
  apply (in_map (fun r => unqualifyRecordNames r zone)).
  apply in_or_app. left. apply in_or_app. right. now left.
Qed.

(** C3. [AppendRecords] has reached [record] (the records [pre] before
    it went through) and the vendor answers the fetch of its set with an
    error [msg].  If [msg] is the not-found error, a new set is pushed
    that holds one enabled entry with the value of the record, the TTL
    of the record and its type; when that push succeeds the loop goes on
    with the record counted as added, so a call that ends well returns
    it.  If [msg] is any other error the call ends there with that
    error. *)
Theorem AppendRecords_fetch_error
        (zone : string) (order : list string) (w : World St)
        (pre post : list Record) (record : Record) (added : list Record)
        (w1 : World St) (msg : string) (c1 : St) :
  let rr := libdns.RR_of record in
  let fetched := EvRRSet zone (RR.Name rr) (RR.Type_ rr) (inl msg) in
  let created :=
    RRSet.mk (RR.Type_ rr) (Seconds_int (RR.TTL rr))
             [ResourceRecord.mk [RR.Data rr] true] in
  plan order (caller_records (qualified zone w)) = (pre ++ record :: post)%list ->
  run_steps (append_step zone) pre [] (qualified zone w) = (Ok added, w1) ->
  cli_RRSet zone (RR.Name rr) (RR.Type_ rr) (client w1) = (inl msg, c1) ->
  (strings.Contains msg "404: record is not found" = true ->
   forall upd c2,
     cli_UpdateRRSet zone (RR.Name rr) (RR.Type_ rr) created c1 = (upd, c2) ->
     let pushed := EvUpdateRRSet zone (RR.Name rr) (RR.Type_ rr) created upd in
     let w2 := mkWorld c2 (trace w1 ++ [fetched; pushed])%list (caller_records w1) in
     match upd with
     | Some err => AppendRecords zone order w = (Err (SDKError err), w2)
     | None =>
         AppendRecords zone order w
         = finish zone (run_steps (append_step zone) post (added ++ [record])%list w2)
         /\ forall rs w', AppendRecords zone order w = (Ok rs, w') ->
                          In (unqualifyRecordNames record zone) rs
     end)
  /\ (strings.Contains msg "404: record is not found" = false ->
      AppendRecords zone order w
      = (Err (SDKError msg),
         mkWorld c1 (trace w1 ++ [fetched])%list (caller_records w1))).
Proof.
  intros rr fetched created Hplan Hpre Hfetch.
  assert (Hrun : AppendRecords zone order w
                 = finish zone ((append_step zone record ;;;
                                 run_steps (append_step zone) post (added ++ [record])%list) w1)).
  { rewrite AppendRecords_run, Hplan. now rewrite (run_steps_reach _ _ _ _ _ _ _ _ Hpre). }
  split.
  - intros Hnf upd c2 Hupd pushed w2.
    assert (Hstep : append_step zone record w1
                    = (match upd with Some err => Err (SDKError err) | None => Ok tt end, w2)).
    { unfold append_step, append_one, bind, call_RRSet, call_UpdateRRSet, log.
      fold rr. rewrite Hfetch. rewrite Hnf. simpl.
      unfold created_set, new_entry. fold rr. fold created. rewrite Hupd.
      unfold w2, pushed, fetched. rewrite <- List.app_assoc. simpl.
      destruct upd; reflexivity. }
    destruct upd as [err|].
    + rewrite Hrun. unfold bind. now rewrite Hstep.
    + assert (Hgo : AppendRecords zone order w
                    = finish zone (run_steps (append_step zone) post
                                             (added ++ [record])%list w2)).
      { rewrite Hrun. unfold bind. now rewrite Hstep. }
      split; [exact Hgo|].
      intros rs w' Hok. rewrite Hgo in Hok. now apply finish_In in Hok.
  - intros Hnf. rewrite Hrun. unfold bind.
    unfold append_step, append_one, bind, call_RRSet, log.
    fold rr. rewrite Hfetch, Hnf. reflexivity.
Qed.

End AppendFacts.

Lemma AppendRecords_fetch_error_witness :
  In (unqualifyRecordNames (P := sample.platform)
        (RecAddress (Address.mk sample.platform "www.example.com." 300000000000 "1.2.3.4"))
        "example.com.")
     [RecAddress (Address.mk sample.platform "www" 300000000000 "1.2.3.4")].
Proof.
  pose (record := RecAddress (P := sample.platform)
                    (Address.mk sample.platform "www.example.com." 300000000000 "1.2.3.4")).
  pose (w := sample.world [] [RecRR (P := sample.platform)
                                    (RR.mk "www" 300000000000 "A" "1.2.3.4")]).
  pose proof (@AppendRecords_fetch_error sample.platform sample.Store sample.vendor
                "example.com." ["A"] w [] [] record [] (qualified "example.com." w)
                sample.not_found [] eq_refl eq_refl eq_refl) as [H _].
  specialize (H eq_refl None
                [(("www.example.com.", "A"),
                  RRSet.mk "A" 300 [ResourceRecord.mk ["1.2.3.4"] true])]
                eq_refl).
  exact (proj2 H [RecAddress (Address.mk sample.platform "www" 300000000000 "1.2.3.4")]
               (snd (AppendRecords (cli := sample.vendor) "example.com." ["A"] w))
               eq_refl).
Defined.

(* ================================================================== *)
(** * A failing record ends the batch *)
(* ================================================================== *)

Section BatchFacts.
Context {P : Platform} {St : Type} {cli : Client St}.

Lemma run_steps_stops (zone : string) (step : Record -> M St unit)
      (records : list Record) (w0 : World St) :
  confined step ->
  stops_at_first_failure step records w0 (finish zone (run_steps step records [] w0)).
Proof.
  intros Hc pre record post added w1 e w2 Hrecords Hpre Hstep.
  subst records. rewrite (run_steps_reach _ _ _ _ _ _ _ _ Hpre).
  unfold bind. rewrite Hstep. simpl. split; [reflexivity|].
  split; [now apply run_steps_ok in Hpre|].
  destruct (run_steps_confined step Hc _ _ _ _ _ Hpre) as (_ & evs1 & Ht1 & Ha1).
  destruct (Hc _ _ _ _ Hstep) as (_ & evs2 & Ht2 & Ha2).
  exists evs1, evs2. rewrite Ht2, Ht1. rewrite <- List.app_assoc. auto.
Qed.

(** C8. [DeleteRecords] has deleted the records [pre] and the vendor
    fails the delete call for the next record, whatever the reason (the
    record may not exist): the call ends with the error that names that
    record, in the world that failing call left, and the client was
    called about the records of [pre] before it and about no other. *)
Theorem DeleteRecords_failed_call
        (zone : string) (w : World St) (pre post : list Record) (record : Record)
        (deleted : list Record) (w1 : World St) (err : string) (c1 : St) :
  let rr := libdns.RR_of record in
  let failed :=
    EvDeleteRRSetRecord zone (RR.Name rr) (RR.Type_ rr) (RR.Data rr) (Some err) in
  caller_records (qualified zone w) = (pre ++ record :: post)%list ->
  run_steps (delete_one zone) pre [] (qualified zone w) = (Ok deleted, w1) ->
  cli_DeleteRRSetRecord zone (RR.Name rr) (RR.Type_ rr) (RR.Data rr) (client w1)
  = (Some err, c1) ->
  DeleteRecords zone w
  = (Err (FailedToDelete record),
     mkWorld c1 (trace w1 ++ [failed])%list (caller_records w1))
  /\ exists evs,
      trace w1 = (trace w ++ evs)%list
      /\ Forall (fun ev => exists r, In r pre /\ about r ev) evs.
Proof.
  intros rr failed Hrecords Hpre Hcall. split.
  - rewrite DeleteRecords_run, Hrecords.
    rewrite (run_steps_reach _ _ _ _ _ _ _ _ Hpre).
    unfold bind, delete_one, bind, call_DeleteRRSetRecord, log.
    fold rr. rewrite Hcall. reflexivity.
  - destruct (run_steps_confined _ (delete_one_confined zone) _ _ _ _ _ Hpre)
      as (_ & evs & Ht & Ha).
    exists evs. split; [exact Ht | exact Ha].
Qed.

(** C9. Each of the three batch calls stops at the first failing
    record: it returns the error and no list, the records after the
    failing one are not touched, and what the vendor has seen is the
    calls for the records before the failure and for the failing one. *)
Theorem batch_stops_at_first_failure (zone : string) (order : list string) (w : World St) :
  stops_at_first_failure (append_step zone)
    (plan order (caller_records (qualified zone w))) (qualified zone w)
    (AppendRecords zone order w)
  /\ stops_at_first_failure (set_one zone)
       (caller_records (qualified zone w)) (qualified zone w)
       (SetRecords zone w)
  /\ stops_at_first_failure (delete_one zone)
       (caller_records (qualified zone w)) (qualified zone w)
       (DeleteRecords zone w).
Proof.
  rewrite AppendRecords_run, SetRecords_run, DeleteRecords_run.
  split; [|split]; apply run_steps_stops.
  - apply append_step_confined.
  - apply set_one_confined.
  - apply delete_one_confined.
Qed.

Lemma finish_caller_records (zone : string) (r : Outcome (list Record) * World St) :
  caller_records (snd (finish zone r)) = caller_records (snd r).
Proof. destruct r as [[l|e|] w]; reflexivity. Qed.

(** C10. Each of the three batch calls first overwrites the caller's
    slice, every element by its qualified form, without a call to the
    vendor; all its calls are made from the world in which the slice is
    overwritten, and however the call ends, with a list or with an
    error, the slice stays overwritten. *)
Theorem caller_slice_overwritten (zone : string) (order : list string) (w : World St) :
  let overwritten :=
    map (fun record => qualityRecordNames record zone) (caller_records w) in
  let w0 := mkWorld (client w) (trace w) overwritten in
  (AppendRecords zone order w
   = finish zone (run_steps (append_step zone) (plan order overwritten) [] w0)
   /\ caller_records (snd (AppendRecords zone order w)) = overwritten)
  /\ (SetRecords zone w = finish zone (run_steps (set_one zone) overwritten [] w0)
      /\ caller_records (snd (SetRecords zone w)) = overwritten)
  /\ (DeleteRecords zone w = finish zone (run_steps (delete_one zone) overwritten [] w0)
      /\ caller_records (snd (DeleteRecords zone w)) = overwritten).
Proof.
  intros overwritten w0.
  rewrite AppendRecords_run, SetRecords_run, DeleteRecords_run.
  change (qualified zone w) with w0. change (caller_records w0) with overwritten.
  repeat split; rewrite finish_caller_records.
  - destruct (run_steps (append_step zone) (plan order overwritten) [] w0) as [o w'] eqn:E.
    now destruct (run_steps_confined _ (append_step_confined zone) _ _ _ _ _ E).
  - destruct (run_steps (set_one zone) overwritten [] w0) as [o w'] eqn:E.
    now destruct (run_steps_confined _ (set_one_confined zone) _ _ _ _ _ E).
  - destruct (run_steps (delete_one zone) overwritten [] w0) as [o w'] eqn:E.
    now destruct (run_steps_confined _ (delete_one_confined zone) _ _ _ _ _ E).
Qed.

(** ** [SetRecords] against [AppendRecords] *)

Lemma set_one_fetched (zone : string) (record : Record) (w : World St)
      (rrSet : RRSet.t) (c1 : St) :
  let rr := libdns.RR_of record in
  cli_RRSet zone (RR.Name rr) (RR.Type_ rr) (client w) = (inr rrSet, c1) ->
  set_one zone record w = append_step zone record w.
Proof.
  intros rr H. unfold set_one, append_step, append_one, bind, call_RRSet.
  fold rr. now rewrite H.
Qed.

Lemma set_one_fetch_error (zone : string) (record : Record) (w : World St)
      (msg : string) (c1 : St) :
  let rr := libdns.RR_of record in
  cli_RRSet zone (RR.Name rr) (RR.Type_ rr) (client w) = (inl msg, c1) ->
  set_one zone record w
  = (Err (SDKError msg),
     mkWorld c1 (trace w ++ [EvRRSet zone (RR.Name rr) (RR.Type_ rr) (inl msg)])%list
             (caller_records w)).
Proof.
  intros rr H. unfold set_one, bind, call_RRSet, log. fold rr. now rewrite H.
Qed.

Lemma append_step_other_error (zone : string) (record : Record) (w : World St)
      (msg : string) (c1 : St) :
  let rr := libdns.RR_of record in
  cli_RRSet zone (RR.Name rr) (RR.Type_ rr) (client w) = (inl msg, c1) ->
  strings.Contains msg "404: record is not found" = false ->
  append_step zone record w
  = (Err (SDKError msg),
     mkWorld c1 (trace w ++ [EvRRSet zone (RR.Name rr) (RR.Type_ rr) (inl msg)])%list
             (caller_records w)).
Proof.
  intros rr H Hnf. unfold append_step, append_one, bind, call_RRSet, log.
  fold rr. now rewrite H, Hnf.
Qed.

Lemma no_not_found_app (evs1 evs2 : list Event) :
  no_not_found (evs1 ++ evs2)%list -> no_not_found evs1 /\ no_not_found evs2.
Proof.
  intros H. split; intros zone name ty msg Hin; apply (H zone name ty msg);
    apply in_or_app; auto.
Qed.

Lemma run_steps_set_append (zone : string) (records : list Record) :
  forall acc w o w' evs,
    run_steps (set_one zone) records acc w = (o, w') ->
    trace w' = (trace w ++ evs)%list ->
    no_not_found evs ->
    run_steps (append_step zone) records acc w = (o, w').
Proof.
  induction records as [|r records IH]; intros acc w o w' evs Hrun Ht Hnf.
  - exact Hrun.
  - simpl in *. unfold bind in *.
    destruct (cli_RRSet zone (RR.Name (libdns.RR_of r)) (RR.Type_ (libdns.RR_of r))
                        (client w)) as [[msg|rrSet] c1] eqn:Hfetch.
    + rewrite (set_one_fetch_error zone r w msg c1 Hfetch) in Hrun.
      inversion Hrun; subst o w'. simpl in Ht.
      apply List.app_inv_head in Ht. subst evs.
      rewrite (append_step_other_error zone r w msg c1 Hfetch); [reflexivity|].
      apply (Hnf zone (RR.Name (libdns.RR_of r)) (RR.Type_ (libdns.RR_of r)) msg).
      now left.
    + rewrite <- (set_one_fetched zone r w rrSet c1 Hfetch).
      destruct (set_one zone r w) as [o1 w1] eqn:E1.
      destruct (set_one_confined zone r w o1 w1 E1) as (_ & evs1 & Ht1 & _).
      destruct o1 as [[]|e|]; [|exact Hrun|exact Hrun].
      destruct (run_steps_confined _ (set_one_confined zone) _ _ _ _ _ Hrun)
        as (_ & evs2 & Ht2 & _).
      rewrite Ht2, Ht1, <- List.app_assoc in Ht.
      apply List.app_inv_head in Ht. subst evs.
      apply no_not_found_app in Hnf as [_ Hnf2].
      now apply (IH _ _ _ _ evs2 Hrun Ht2).
Qed.

(** C6. [SetRecords] does for a record what [AppendRecords] does for it
    when the vendor has a set for its name and type: the same fetch, the
    same merge by value, the same push of the whole set.  It differs when
    the fetch fails: [SetRecords] passes on every error, the not-found
    error too, and pushes nothing.  So a whole call of [SetRecords] in
    which no fetch is answered with not-found does what [AppendRecords]
    does on the same batch, gone through in the same order. *)
Theorem SetRecords_as_AppendRecords (zone : string) :
  (forall record w rrSet c1,
      let rr := libdns.RR_of record in
      cli_RRSet zone (RR.Name rr) (RR.Type_ rr) (client w) = (inr rrSet, c1) ->
      set_one zone record w = append_step zone record w
      /\ exists upd c2,
          cli_UpdateRRSet zone (RR.Name rr) (RR.Type_ rr) (merge rrSet (RR.Data rr)) c1
          = (upd, c2)
          /\ trace (snd (set_one zone record w))
             = (trace w
                ++ [EvRRSet zone (RR.Name rr) (RR.Type_ rr) (inr rrSet);
                    EvUpdateRRSet zone (RR.Name rr) (RR.Type_ rr)
                                  (merge rrSet (RR.Data rr)) upd])%list)
  /\ (forall record w msg c1,
         let rr := libdns.RR_of record in
         cli_RRSet zone (RR.Name rr) (RR.Type_ rr) (client w) = (inl msg, c1) ->
         set_one zone record w
         = (Err (SDKError msg),
            mkWorld c1 (trace w ++ [EvRRSet zone (RR.Name rr) (RR.Type_ rr) (inl msg)])%list
                    (caller_records w)))
  /\ (forall order w evs,
         plan order (caller_records (qualified zone w)) = caller_records (qualified zone w) ->
         trace (snd (SetRecords zone w)) = (trace w ++ evs)%list ->
         no_not_found evs ->
         AppendRecords zone order w = SetRecords zone w).
Proof.
  split; [|split].
  - intros record w rrSet c1 rr Hfetch. split; [now apply (set_one_fetched zone record w rrSet c1)|].
    destruct (cli_UpdateRRSet zone (RR.Name rr) (RR.Type_ rr) (merge rrSet (RR.Data rr)) c1)
      as [upd c2] eqn:Hupd.
    exists upd, c2. split; [reflexivity|].
    unfold set_one, bind, call_RRSet, call_UpdateRRSet, log. fold rr.
    rewrite Hfetch. simpl. rewrite Hupd.
    destruct upd; simpl; now rewrite <- List.app_assoc.
  - intros record w msg c1 rr Hfetch. now apply set_one_fetch_error.
  - intros order w evs Hplan Ht Hnf.
    rewrite AppendRecords_run, Hplan. rewrite SetRecords_run in *.
    destruct (run_steps (set_one zone) (caller_records (qualified zone w)) []
                        (qualified zone w)) as [o w'] eqn:E.
    rewrite (run_steps_set_append zone _ _ _ _ _ evs E); [reflexivity| |exact Hnf].
    destruct o; exact Ht.
Qed.

End BatchFacts.

Lemma DeleteRecords_failed_call_witness :
  let record :=
    RecTXT (P := sample.platform) (TXT.mk "gone.example.com." 300000000000 "hello") in
  DeleteRecords (cli := sample.vendor) "example.com."
                (sample.world [] [RecTXT (TXT.mk "gone" 300000000000 "hello")])
  = (Err (FailedToDelete record),
     mkWorld []
             [EvDeleteRRSetRecord "example.com." "gone.example.com." "TXT" "hello"
                                  (Some sample.not_found)]
             [record]).
Proof.
  intros record.
  exact (proj1 (@DeleteRecords_failed_call sample.platform sample.Store sample.vendor
                  "example.com."
                  (sample.world [] [RecTXT (TXT.mk "gone" 300000000000 "hello")])
                  [] [] record []
                  (sample.world [] [record]) sample.not_found []
                  eq_refl eq_refl eq_refl)).
Defined.

Lemma batch_stops_at_first_failure_witness :
  let kept := RRSet.mk "TXT" 300 [ResourceRecord.mk ["a"] true] in
  let st : sample.Store := [(("a.example.com.", "TXT"), kept)] in
  let ra := RecTXT (P := sample.platform) (TXT.mk "a.example.com." 300000000000 "a") in
  let rb := RecTXT (P := sample.platform) (TXT.mk "b.example.com." 300000000000 "b") in
  let rc := RecTXT (P := sample.platform) (TXT.mk "c.example.com." 300000000000 "c") in
  let w := sample.world st [RecTXT (TXT.mk "a" 300000000000 "a");
                            RecTXT (TXT.mk "b" 300000000000 "b");
                            RecTXT (TXT.mk "c" 300000000000 "c")] in
  SetRecords (cli := sample.vendor) "example.com." w
  = (Err (SDKError sample.not_found),
     mkWorld st
             [EvRRSet "example.com." "a.example.com." "TXT" (inr kept);
              EvUpdateRRSet "example.com." "a.example.com." "TXT" kept None;
              EvRRSet "example.com." "b.example.com." "TXT" (inl sample.not_found)]
             [ra; rb; rc]).
Proof.
  intros kept st ra rb rc w.
  pose proof (@batch_stops_at_first_failure sample.platform sample.Store sample.vendor
                "example.com." [] w) as (_ & Hset & _).
  exact (proj1 (Hset [ra] rb [rc] [ra]
                     (mkWorld st
                        [EvRRSet "example.com." "a.example.com." "TXT" (inr kept);
                         EvUpdateRRSet "example.com." "a.example.com." "TXT" kept None]
                        [ra; rb; rc])
                     (SDKError sample.not_found)
                     (mkWorld st
                        [EvRRSet "example.com." "a.example.com." "TXT" (inr kept);
                         EvUpdateRRSet "example.com." "a.example.com." "TXT" kept None;
                         EvRRSet "example.com." "b.example.com." "TXT"
                                 (inl sample.not_found)]
                        [ra; rb; rc])
                     eq_refl eq_refl eq_refl)).
Defined.

(** With the vendor out of reach the call fails at its first fetch, and
    the caller's slice holds the qualified record all the same. *)
Example slice_overwritten_on_error :
  AppendRecords (P := sample.platform) (cli := sample.down) "example.com." ["TXT"]
                (mkWorld tt [] [RecTXT (TXT.mk "www" 300000000000 "hello")])
  = (Err (SDKError "503: service unavailable"),
     mkWorld tt
             [EvRRSet "example.com." "www.example.com." "TXT"
                      (inl "503: service unavailable")]
             [RecTXT (TXT.mk "www.example.com." 300000000000 "hello")]).
Proof. reflexivity. Qed.

Lemma SetRecords_as_AppendRecords_witness :
  let held := RRSet.mk "TXT" 300 [ResourceRecord.mk ["a"] true] in
  let w := sample.world [(("www.example.com.", "TXT"), held)]
                        [RecTXT (P := sample.platform) (TXT.mk "www" 300000000000 "b")] in
  AppendRecords (cli := sample.vendor) "example.com." ["TXT"] w
  = SetRecords (cli := sample.vendor) "example.com." w.
Proof.
  intros held w.
  apply (proj2 (proj2 (@SetRecords_as_AppendRecords sample.platform sample.Store
                         sample.vendor "example.com."))
           ["TXT"] w
           [EvRRSet "example.com." "www.example.com." "TXT" (inr held);
            EvUpdateRRSet "example.com." "www.example.com." "TXT"
                          (RRSet.mk "TXT" 300 [ResourceRecord.mk ["a"] true;
                                               ResourceRecord.mk ["b"] true]) None]).
  - reflexivity.
  - reflexivity.
  - intros zone name ty msg [H | [H | []]]; discriminate H.
Defined.

(* ================================================================== *)
(** * [GetRecords]: one record for each entry of the index *)
(* ================================================================== *)

Section GetFacts.
Context {P : Platform} {St : Type} {cli : Client St}.

Lemma last_value_snoc (rrs : list ResourceRecord.t) (rr : ResourceRecord.t) :
  last_value (rrs ++ [rr])%list = Some (ContentToString rr).
Proof. induction rrs as [|x rrs IH]; simpl; [reflexivity | now rewrite IH]. Qed.

Lemma fill_slot_spec (entry : ZoneRecord.t) (rrs : list ResourceRecord.t) :
  forall (done : list (option Record)) (slot : option Record) (rest : list (option Record)),
    fill_slot entry rrs (List.length done) (done ++ slot :: rest)%list
    = (done ++ match last_value rrs with
               | Some value => Some (entry_record entry value)
               | None => slot
               end :: rest)%list.
Proof.
  induction rrs as [|rr rrs IH]; intros done slot rest; simpl; [reflexivity|].
  rewrite (store_map (fun _ => Some _) done rest slot). rewrite IH.
  destruct (last_value rrs); reflexivity.
Qed.

Lemma fetch_loop_spec (zone : string) (entries : list ZoneRecord.t) :
  forall (done : list (option Record)) (w : World St)
         (records : list (option Record)) (w' : World St),
    fetch_loop zone entries (List.length done)
               (done ++ repeat None (List.length entries))%list w = (Ok records, w') ->
    exists sets,
      List.length sets = List.length entries
      /\ records = (done ++ map slot_of (combine entries sets))%list
      /\ trace w' = (trace w ++ map (fetch_event zone) (combine entries sets))%list.
Proof.
  induction entries as [|entry entries IH]; intros done w records w'.
  - simpl. unfold ret. intros H. inversion H; subst.
    exists []. simpl. rewrite !List.app_nil_r. auto.
  - cbn [fetch_loop List.length repeat]. unfold bind, call_RRSet, log.
    destruct (cli_RRSet zone (ZoneRecord.Name entry) (ZoneRecord.Type_ entry) (client w))
      as [[err|rrSet] c1]; [discriminate|].
    rewrite fill_slot_spec.
    match goal with
    | |- context [(done ++ ?s :: ?r)%list] =>
        replace (done ++ s :: r)%list with ((done ++ [s]) ++ r)%list
          by (rewrite <- List.app_assoc; reflexivity)
    end.
    replace (S (List.length done))
      with (List.length (done ++ [match last_value (RRSet.Records rrSet) with
                                  | Some value => Some (entry_record entry value)
                                  | None => None
                                  end])%list)
      by (rewrite List.length_app; simpl; lia).
    intros H. apply IH in H as (sets & Hlen & Hrecords & Htrace).
    exists (rrSet :: sets). simpl. split; [now rewrite Hlen|]. split.
    + rewrite Hrecords, <- List.app_assoc. reflexivity.
    + rewrite Htrace. simpl. rewrite <- List.app_assoc. reflexivity.
Qed.

Lemma unqualify_slots_spec (zone : string) (slots : list (option Record)) :
  forall (w : World St) (rs : list Record) (w' : World St),
    unqualify_slots zone slots w = (Ok rs, w') ->
    w' = w
    /\ Forall2 (fun slot record =>
                  exists r0, slot = Some r0 /\ record = unqualifyRecordNames r0 zone)
               slots rs.
Proof.
  induction slots as [|[r0|] slots IH]; intros w rs w'; simpl.
  - unfold ret. intros H. inversion H; subst. split; [reflexivity | constructor].
  - unfold bind. destruct (unqualify_slots zone slots w) as [[rest|e|] w1] eqn:E;
      try discriminate.
    unfold ret. intros H. inversion H; subst.
    destruct (IH _ _ _ E) as [-> HF]. split; [reflexivity|].
    constructor; [now exists r0 | exact HF].
  - discriminate.
Qed.

(** What a list returned by [GetRecords] is made of. *)
Lemma GetRecords_returned
        (zone : string) (w : World St) (rs : list Record) (w' : World St) :
  GetRecords zone w = (Ok rs, w') ->
  exists gcoreZone sets,
    let fetches := combine (Zone.Records gcoreZone) sets in
    List.length sets = List.length (Zone.Records gcoreZone)
    /\ trace w' = (trace w ++ EvZone zone (inr gcoreZone) :: map (fetch_event zone) fetches)%list
    /\ List.length rs = List.length (Zone.Records gcoreZone)
    /\ Forall2 (fun fetch record =>
                  exists value,
                    last_value (RRSet.Records (snd fetch)) = Some value
                    /\ record = unqualifyRecordNames (entry_record (fst fetch) value) zone)
               fetches rs.
Proof.
  unfold GetRecords, bind, call_Zone, log.
  destruct (cli_Zone zone (client w)) as [[err|gcoreZone] c1]; [discriminate|].
  destruct (fetch_loop zone (Zone.Records gcoreZone) 0
                       (repeat None (List.length (Zone.Records gcoreZone))) _)
    as [[slots|e|] w1] eqn:E; try discriminate.
  intros H.
  apply (fetch_loop_spec zone (Zone.Records gcoreZone) []) in E
    as (sets & Hlen & Hslots & Htrace).
  apply unqualify_slots_spec in H as [-> HF].
  simpl in Hslots, Htrace. subst slots.
  exists gcoreZone, sets. cbv zeta.
  assert (HF' : Forall2
                  (fun fetch record =>
                     exists value,
                       last_value (RRSet.Records (snd fetch)) = Some value
                       /\ record = unqualifyRecordNames (entry_record (fst fetch) value) zone)
                  (combine (Zone.Records gcoreZone) sets) rs).
  { revert HF. generalize (combine (Zone.Records gcoreZone) sets). clear.
    intros fetches. revert rs. induction fetches as [|fetch fetches IH]; intros rs HF.
    - inversion HF. constructor.
    - inversion HF as [|? ? ? ? (r0 & Hslot & Hrec) HF']; subst.
      constructor; [|now apply IH].
      unfold slot_of in Hslot.
      destruct (last_value (RRSet.Records (snd fetch))) as [value|]; [|discriminate].
      inversion Hslot; subst. now exists value. }
  split; [exact Hlen|]. split.
  - rewrite Htrace. now rewrite <- List.app_assoc.
  - split; [|exact HF'].
    apply Forall2_length in HF'. rewrite <- HF'.
    rewrite length_combine, Hlen. apply Nat.min_id.
Qed.

(** C4. When [GetRecords] returns a list, the vendor answered the
    index and, for each entry of the index, a set; the list has exactly
    one record for each entry, in the order of the index, and the record
    of an entry holds the value of the last entry of its set, whatever
    the number of values the set has: it is the record built from the
    index entry and that last value, unqualified. *)
Theorem GetRecords_one_record_per_entry
        (zone : string) (w : World St) (rs : list Record) (w' : World St) :
  GetRecords zone w = (Ok rs, w') ->
  exists gcoreZone sets,
    let fetches := combine (Zone.Records gcoreZone) sets in
    List.length sets = List.length (Zone.Records gcoreZone)
    /\ trace w' = (trace w ++ EvZone zone (inr gcoreZone) :: map (fetch_event zone) fetches)%list
    /\ List.length rs = List.length (Zone.Records gcoreZone)
    /\ Forall2 (fun fetch record =>
                  exists value,
                    last_value (RRSet.Records (snd fetch)) = Some value
                    /\ record = unqualifyRecordNames (entry_record (fst fetch) value) zone)
               fetches rs.
Proof. apply GetRecords_returned. Qed.

(** An entry whose set is empty leaves its slot [nil], and the last loop
    of [GetRecords] panics on it. *)
Lemma unqualify_slots_nil (zone : string) (done : list Record)
      (rest : list (option Record)) (w : World St) :
  unqualify_slots zone (map Some done ++ None :: rest)%list w = (Panic, w).
Proof.
  induction done as [|r done IH]; simpl; [reflexivity|].
  unfold bind. now rewrite IH.
Qed.

End GetFacts.

Lemma GetRecords_one_record_per_entry_witness :
  let two := RRSet.mk "TXT" 300 [ResourceRecord.mk ["first"] true;
                                 ResourceRecord.mk ["second"] true] in
  let st : sample.Store := [(("www.example.com.", "TXT"), two)] in
  exists gcoreZone sets,
    List.length sets = List.length (Zone.Records gcoreZone)
    /\ trace (snd (GetRecords (P := sample.platform) (cli := sample.vendor)
                              "example.com." (sample.world st [])))
       = ([] ++ EvZone "example.com." (inr gcoreZone)
             :: map (fetch_event "example.com.") (combine (Zone.Records gcoreZone) sets))%list
    /\ List.length [RecTXT (P := sample.platform) (TXT.mk "www" 300000000000 "second")]
       = List.length (Zone.Records gcoreZone)
    /\ Forall2 (fun fetch record =>
                  exists value,
                    last_value (RRSet.Records (snd fetch)) = Some value
                    /\ record = unqualifyRecordNames (entry_record (fst fetch) value)
                                                     "example.com.")
               (combine (Zone.Records gcoreZone) sets)
               [RecTXT (P := sample.platform) (TXT.mk "www" 300000000000 "second")].
Proof.
  intros two st.
  exact (@GetRecords_one_record_per_entry sample.platform sample.Store sample.vendor
           "example.com." (sample.world st [])
           [RecTXT (TXT.mk "www" 300000000000 "second")]
           (snd (GetRecords (P := sample.platform) (cli := sample.vendor)
                            "example.com." (sample.world st [])))
           eq_refl).
Defined.

(** With an empty set in the zone, [GetRecords] panics. *)
Example GetRecords_empty_set :
  fst (GetRecords (P := sample.platform) (cli := sample.vendor) "example.com."
                  (sample.world [(("www.example.com.", "TXT"), RRSet.mk "TXT" 300 [])] []))
  = Panic.
Proof. reflexivity. Qed.

(* ================================================================== *)
(** * Which names reach the vendor, and which come back *)
(* ================================================================== *)

Section NamesInCalls.
Context {P : Platform} {St : Type} {cli : Client St}.

Lemma unqualified_from_intro (zone : string) (r0 : Record) :
  unqualified_from zone r0 (unqualifyRecordNames r0 zone).
Proof.
  split; [reflexivity|]. rewrite unqualifyRecordNames_spec.
  destruct (libdns.Parse (libdns.RR_of r0)) as [parsed|]; [|reflexivity].
  destruct (supported_shape parsed); reflexivity.
Qed.





(** C7, as the code has it. Every record that [GetRecords] or
    [AppendRecords] returns went through [unqualifyRecordNames]: for
    [GetRecords] the record built from an entry of the index, for
    [AppendRecords] the qualified form of a record of the batch.  If it
    parses into one of the six shapes its name is the zone-relative form;
    otherwise it comes back with the name it had. *)
Theorem returned_records_unqualified (zone : string) :
  (forall w rs w',
      GetRecords zone w = (Ok rs, w') ->
      Forall (fun r => exists gcoreZone entry value,
                           In (EvZone zone (inr gcoreZone)) (trace w')
                           /\ In entry (Zone.Records gcoreZone)
                           /\ unqualified_from zone (entry_record entry value) r) rs)
  /\ (forall order w rs w',
         AppendRecords zone order w = (Ok rs, w') ->
         Forall (fun r => exists record,
                              In record (caller_records w)
                              /\ unqualified_from zone (qualityRecordNames record zone) r) rs).
Proof.
  split.
  - intros w rs w' H.
    apply GetRecords_returned in H
      as (gcoreZone & sets & Hlen & Ht & _ & HF).
    cbv zeta in *.
    assert (Hin : In (EvZone zone (inr gcoreZone)) (trace w')).
    { rewrite Ht. apply in_or_app. right. now left. }
    assert (Hentries : forall fetch, In fetch (combine (Zone.Records gcoreZone) sets) ->
                                     In (fst fetch) (Zone.Records gcoreZone)).
    { intros [entry rrSet] Hf. now apply in_combine_l in Hf. }
    revert HF Hentries. generalize (combine (Zone.Records gcoreZone) sets).
    intros fetches HF. induction HF as [|fetch r fetches rs (value & _ & Hr) _ IH];
      intros Hentries; constructor.
    + exists gcoreZone, (fst fetch), value. repeat split; auto.
      * apply Hentries. now left.
      * subst r. apply unqualified_from_intro.
    + apply IH. intros f Hf. apply Hentries. now right.
  - intros order w rs w' H. rewrite AppendRecords_run in H.
    destruct (run_steps (append_step zone)
                        (plan order (caller_records (qualified zone w))) []
                        (qualified zone w)) as [[added|e|] w1] eqn:E;
      simpl in H; inversion H; subst; clear H.
    apply run_steps_ok in E. simpl in E. subst added.
    apply Forall_forall. intros r Hr.
    apply in_map_iff in Hr as (r0 & <- & Hr0).
    apply in_plan in Hr0. simpl in Hr0.
    apply in_map_iff in Hr0 as (r1 & <- & Hr1).
    exists r1. split; [exact Hr1 | apply unqualified_from_intro].
Qed.

End NamesInCalls.


(** C7, as stated, fails. The zone holds a CAA set; [GetRecords]
    returns its record under the absolute name the vendor lists it
    with. *)
Lemma GetRecords_keeps_absolute_name :
  fst (GetRecords (P := sample.platform) (cli := sample.vendor) "example.com."
                  (sample.world
                     [(("example.com.", "CAA"),
                       RRSet.mk "CAA" 300 [ResourceRecord.mk ["0"; "issue"; "ca.example.net"] true])]
                     []))
  = Ok [RecRR (RR.mk "example.com." 300000000000 "CAA" "0 issue ca.example.net")]
  /\ strings.HasSuffix "example.com." "." = true.
Proof. split; reflexivity. Qed.

Lemma returned_records_unqualified_witness :
  Forall (fun r => exists record,
              In record [RecTXT (P := sample.platform) (TXT.mk "www" 300000000000 "hello")]
              /\ unqualified_from "example.com."
                                  (qualityRecordNames record "example.com.") r)
         [RecTXT (P := sample.platform) (TXT.mk "www" 300000000000 "hello")].
Proof.
  exact (proj2 (@returned_records_unqualified sample.platform sample.Store sample.vendor
                  "example.com.")
               ["TXT"]
               (sample.world [] [RecTXT (TXT.mk "www" 300000000000 "hello")])
               [RecTXT (TXT.mk "www" 300000000000 "hello")]
               (snd (AppendRecords (P := sample.platform) (cli := sample.vendor)
                                   "example.com." ["TXT"]
                                   (sample.world [] [RecTXT (TXT.mk "www" 300000000000
                                                                    "hello")])))
               eq_refl).
Defined.

(* ================================================================== *)
(** * More on the merge and on the path of an existing set *)
(* ================================================================== *)

Section ExistingSet.
Context {P : Platform} {St : Type} {cli : Client St}.

Lemma merge_closed (rrSet : RRSet.t) (data : string) :
  merge rrSet data
  = RRSet.mk (RRSet.Type_ rrSet) (RRSet.TTL rrSet)
             (RRSet.Records rrSet
              ++ repeat (ResourceRecord.mk [data] true)
                        (others data (RRSet.Records rrSet)))%list.
Proof. unfold merge. now rewrite merge_loop_spec. Qed.

(** X1. The merge loop never drops or reorders an entry of the fetched
    set and never touches its type or its TTL: the merged set is the
    fetched one followed by one new enabled entry with the value for
    every fetched entry whose text differs from the value. *)
Theorem merge_extends_fetched_set (rrSet : RRSet.t) (data : string) :
  merge rrSet data
  = RRSet.mk (RRSet.Type_ rrSet) (RRSet.TTL rrSet)
             (RRSet.Records rrSet
              ++ repeat (ResourceRecord.mk [data] true)
                        (others data (RRSet.Records rrSet)))%list.
Proof. apply merge_closed. Qed.

Lemma others_none (data : string) (records : list ResourceRecord.t) :
  others data records = 0 <-> Forall (fun rr => ContentToString rr = data) records.
Proof.
  unfold others. induction records as [|rr records IH]; simpl.
  - split; [constructor | reflexivity].
  - destruct (String.eqb (ContentToString rr) data) eqn:E; simpl.
    + apply String.eqb_eq in E. rewrite IH. split.
      * intros H. now constructor.
      * intros H. now inversion H.
    + apply String.eqb_neq in E. split; [discriminate|].
      intros H. inversion H. contradiction.
Qed.

(** X2. The merge leaves a fetched set as it is exactly when every
    entry of the set holds the value; an empty set is such a set, so a
    value merged into an empty set is not stored. *)
Theorem merge_unchanged_iff (rrSet : RRSet.t) (data : string) :
  merge rrSet data = rrSet
  <-> Forall (fun rr => ContentToString rr = data) (RRSet.Records rrSet).
Proof.
  rewrite <- others_none, merge_closed.
  destruct rrSet as [ty ttl records]. simpl. split.
  - intros H. injection H as Hrec.
    apply (f_equal (@List.length _)) in Hrec.
    rewrite List.length_app, repeat_length in Hrec. lia.
  - intros ->. simpl. now rewrite List.app_nil_r.
Qed.

Lemma push_result (zone name ty : string) (rrSet : RRSet.t) (w : World St)
      (upd : option string) (c2 : St) :
  cli_UpdateRRSet zone name ty rrSet (client w) = (upd, c2) ->
  (upd' <- call_UpdateRRSet zone name ty rrSet ;;
   match upd' with
   | Some err' => fail (SDKError err')
   | None => ret tt
   end) w
  = (match upd with Some err => Err (SDKError err) | None => Ok tt end,
     mkWorld c2 (trace w ++ [EvUpdateRRSet zone name ty rrSet upd])%list (caller_records w)).
Proof.
  intros H. unfold bind, call_UpdateRRSet, log. rewrite H. destruct upd; reflexivity.
Qed.

(** X3. [AppendRecords] has reached [record] and the vendor answers
    the fetch with a set: the set is pushed back merged with the value of
    the record, under the type and the TTL it was fetched with (the TTL
    of the record is not used).  If the push fails the call ends with the
    error of the push; if not, the loop goes on with the record counted
    as added. *)
Theorem AppendRecords_existing_set
        (zone : string) (order : list string) (w : World St)
        (pre post : list Record) (record : Record) (added : list Record)
        (w1 : World St) (rrSet : RRSet.t) (c1 : St) (upd : option string) (c2 : St) :
  let rr := libdns.RR_of record in
  let merged :=
    RRSet.mk (RRSet.Type_ rrSet) (RRSet.TTL rrSet)
             (RRSet.Records rrSet
              ++ repeat (ResourceRecord.mk [RR.Data rr] true)
                        (others (RR.Data rr) (RRSet.Records rrSet)))%list in
  let w2 :=
    mkWorld c2
            (trace w1 ++ [EvRRSet zone (RR.Name rr) (RR.Type_ rr) (inr rrSet);
                          EvUpdateRRSet zone (RR.Name rr) (RR.Type_ rr) merged upd])%list
            (caller_records w1) in
  plan order (caller_records (qualified zone w)) = (pre ++ record :: post)%list ->
  run_steps (append_step zone) pre [] (qualified zone w) = (Ok added, w1) ->
  cli_RRSet zone (RR.Name rr) (RR.Type_ rr) (client w1) = (inr rrSet, c1) ->
  cli_UpdateRRSet zone (RR.Name rr) (RR.Type_ rr) merged c1 = (upd, c2) ->
  AppendRecords zone order w
  = match upd with
    | Some err => (Err (SDKError err), w2)
    | None => finish zone (run_steps (append_step zone) post (added ++ [record])%list w2)
    end.
Proof.
  intros rr merged w2 Hplan Hpre Hfetch Hupd.
  rewrite AppendRecords_run, Hplan, (run_steps_reach _ _ _ _ _ _ _ _ Hpre).
  assert (Hstep : append_step zone record w1
                  = (match upd with Some err => Err (SDKError err) | None => Ok tt end, w2)).
  { unfold append_step, append_one. unfold bind at 1. unfold call_RRSet.
    fold rr. rewrite Hfetch. rewrite merge_closed. fold merged.
    rewrite (push_result _ _ _ _ _ upd c2); [|exact Hupd].
    unfold w2, log. simpl. now rewrite <- List.app_assoc. }
  unfold bind. rewrite Hstep. destruct upd; reflexivity.
Qed.

(** X4. The same for [SetRecords], which goes through the batch in
    its own order. *)
Theorem SetRecords_existing_set
        (zone : string) (w : World St)
        (pre post : list Record) (record : Record) (updated : list Record)
        (w1 : World St) (rrSet : RRSet.t) (c1 : St) (upd : option string) (c2 : St) :
  let rr := libdns.RR_of record in
  let merged :=
    RRSet.mk (RRSet.Type_ rrSet) (RRSet.TTL rrSet)
             (RRSet.Records rrSet
              ++ repeat (ResourceRecord.mk [RR.Data rr] true)
                        (others (RR.Data rr) (RRSet.Records rrSet)))%list in
  let w2 :=
    mkWorld c2
            (trace w1 ++ [EvRRSet zone (RR.Name rr) (RR.Type_ rr) (inr rrSet);
                          EvUpdateRRSet zone (RR.Name rr) (RR.Type_ rr) merged upd])%list
            (caller_records w1) in
  caller_records (qualified zone w) = (pre ++ record :: post)%list ->
  run_steps (set_one zone) pre [] (qualified zone w) = (Ok updated, w1) ->
  cli_RRSet zone (RR.Name rr) (RR.Type_ rr) (client w1) = (inr rrSet, c1) ->
  cli_UpdateRRSet zone (RR.Name rr) (RR.Type_ rr) merged c1 = (upd, c2) ->
  SetRecords zone w
  = match upd with
    | Some err => (Err (SDKError err), w2)
    | None => finish zone (run_steps (set_one zone) post (updated ++ [record])%list w2)
    end.
Proof.
  intros rr merged w2 Hrecords Hpre Hfetch Hupd.
  rewrite SetRecords_run, Hrecords, (run_steps_reach _ _ _ _ _ _ _ _ Hpre).
  assert (Hstep : set_one zone record w1
                  = (match upd with Some err => Err (SDKError err) | None => Ok tt end, w2)).
  { unfold set_one. unfold bind at 1. unfold call_RRSet.
    fold rr. rewrite Hfetch. rewrite merge_closed. fold merged.
    rewrite (push_result _ _ _ _ _ upd c2); [|exact Hupd].
    unfold w2, log. simpl. now rewrite <- List.app_assoc. }
  unfold bind. rewrite Hstep. destruct upd; reflexivity.
Qed.

Lemma plan_nil (order : list string) : plan order [] = [].
Proof. unfold plan. induction order as [|ty order IH]; simpl; [reflexivity | exact IH]. Qed.

(** X5. On an empty batch each of the three batch calls returns an
    empty list at once: no call to the vendor, nothing changed, whatever
    the order of the keys. *)
Theorem empty_batch (zone : string) (order : list string) (w : World St) :
  caller_records w = [] ->
  AppendRecords zone order w = (Ok [], w)
  /\ SetRecords zone w = (Ok [], w)
  /\ DeleteRecords zone w = (Ok [], w).
Proof.
  intros H. rewrite AppendRecords_run, SetRecords_run, DeleteRecords_run.
  assert (Hq : qualified zone w = w).
  { unfold qualified. rewrite H. destruct w. simpl in *. now subst. }
  rewrite Hq, H, plan_nil. repeat split.
Qed.

End ExistingSet.

Lemma AppendRecords_existing_set_witness :
  let held := RRSet.mk "TXT" 300 [ResourceRecord.mk ["a"] true] in
  let merged := RRSet.mk "TXT" 300 [ResourceRecord.mk ["a"] true;
                                    ResourceRecord.mk ["b"] true] in
  let record := RecTXT (P := sample.platform) (TXT.mk "www.example.com." 7000000000 "b") in
  AppendRecords (cli := sample.vendor) "example.com." ["TXT"]
                (sample.world [(("www.example.com.", "TXT"), held)]
                              [RecTXT (TXT.mk "www" 7000000000 "b")])
  = (Ok [RecTXT (TXT.mk "www" 7000000000 "b")],
     mkWorld [(("www.example.com.", "TXT"), merged)]
             [EvRRSet "example.com." "www.example.com." "TXT" (inr held);
              EvUpdateRRSet "example.com." "www.example.com." "TXT" merged None]
             [record]).
Proof.
  intros held merged record.
  exact (@AppendRecords_existing_set sample.platform sample.Store sample.vendor
           "example.com." ["TXT"]
           (sample.world [(("www.example.com.", "TXT"), held)]
                         [RecTXT (TXT.mk "www" 7000000000 "b")])
           [] [] record []
           (sample.world [(("www.example.com.", "TXT"), held)] [record])
           held [(("www.example.com.", "TXT"), held)] None
           [(("www.example.com.", "TXT"), merged)]
           eq_refl eq_refl eq_refl eq_refl).
Defined.

Lemma SetRecords_existing_set_witness :
  let held := RRSet.mk "TXT" 300 [ResourceRecord.mk ["a"] true] in
  let merged := RRSet.mk "TXT" 300 [ResourceRecord.mk ["a"] true;
                                    ResourceRecord.mk ["b"] true] in
  let record := RecTXT (P := sample.platform) (TXT.mk "www.example.com." 7000000000 "b") in
  SetRecords (cli := sample.vendor) "example.com."
             (sample.world [(("www.example.com.", "TXT"), held)]
                           [RecTXT (TXT.mk "www" 7000000000 "b")])
  = (Ok [RecTXT (TXT.mk "www" 7000000000 "b")],
     mkWorld [(("www.example.com.", "TXT"), merged)]
             [EvRRSet "example.com." "www.example.com." "TXT" (inr held);
              EvUpdateRRSet "example.com." "www.example.com." "TXT" merged None]
             [record]).
Proof.
  intros held merged record.
  exact (@SetRecords_existing_set sample.platform sample.Store sample.vendor
           "example.com."
           (sample.world [(("www.example.com.", "TXT"), held)]
                         [RecTXT (TXT.mk "www" 7000000000 "b")])
           [] [] record []
           (sample.world [(("www.example.com.", "TXT"), held)] [record])
           held [(("www.example.com.", "TXT"), held)] None
           [(("www.example.com.", "TXT"), merged)]
           eq_refl eq_refl eq_refl eq_refl).
Defined.

Lemma empty_batch_witness :
  AppendRecords (P := sample.platform) (cli := sample.down) "example.com." ["TXT"; "A"]
                (mkWorld tt [] [])
  = (Ok [], mkWorld tt [] [])
  /\ SetRecords (P := sample.platform) (cli := sample.down) "example.com." (mkWorld tt [] [])
     = (Ok [], mkWorld tt [] [])
  /\ DeleteRecords (P := sample.platform) (cli := sample.down) "example.com."
                   (mkWorld tt [] [])
     = (Ok [], mkWorld tt [] []).
Proof.
  exact (@empty_batch sample.platform unit sample.down "example.com." ["TXT"; "A"]
           (mkWorld tt [] []) eq_refl).
Defined.

(* ================================================================== *)
(** * [GetRecords]: failures, and the calls of each operation *)
(* ================================================================== *)

Section GetMore.
Context {P : Platform} {St : Type} {cli : Client St}.

Lemma fetch_loop_error (zone : string) (entries : list ZoneRecord.t) :
  forall i records w e w',
    fetch_loop zone entries i records w = (Err e, w') ->
    exists fetched entry rest sets msg,
      entries = (fetched ++ entry :: rest)%list
      /\ List.length sets = List.length fetched
      /\ e = SDKError msg
      /\ trace w' = (trace w ++ map (fetch_event zone) (combine fetched sets)
                             ++ [failed_fetch zone entry msg])%list.
Proof.
  induction entries as [|entry entries IH]; intros i records w e w'.
  - discriminate.
  - cbn [fetch_loop]. unfold bind, call_RRSet, log.
    destruct (cli_RRSet zone (ZoneRecord.Name entry) (ZoneRecord.Type_ entry) (client w))
      as [[msg|rrSet] c1].
    + unfold fail. intros H. inversion H; subst.
      exists [], entry, entries, [], msg. simpl. auto.
    + intros H. apply IH in H as (fetched & entry' & rest & sets & msg & -> & Hlen & -> & Ht).
      exists (entry :: fetched), entry', rest, (rrSet :: sets), msg. simpl.
      repeat split; [now rewrite Hlen|].
      rewrite Ht. simpl. now rewrite <- List.app_assoc.
Qed.

Lemma fetch_loop_no_panic (zone : string) (entries : list ZoneRecord.t) :
  forall i records w w', fetch_loop zone entries i records w <> (Panic, w').
Proof.
  induction entries as [|entry entries IH]; intros i records w w'.
  - discriminate.
  - cbn [fetch_loop]. unfold bind, call_RRSet, log.
    destruct (cli_RRSet zone (ZoneRecord.Name entry) (ZoneRecord.Type_ entry) (client w))
      as [[msg|rrSet] c1]; [discriminate | apply IH].
Qed.

Lemma fetch_loop_reads (zone : string) (entries : list ZoneRecord.t) :
  forall i records w o w',
    fetch_loop zone entries i records w = (o, w') ->
    caller_records w' = caller_records w
    /\ exists evs, trace w' = (trace w ++ evs)%list /\ calls_only zone [FetchCall] evs.
Proof.
  induction entries as [|entry entries IH]; intros i records w o w'.
  - simpl. unfold ret. intros H. inversion H; subst. split; [reflexivity|].
    exists []. split; [now rewrite List.app_nil_r | constructor].
  - cbn [fetch_loop]. unfold bind, call_RRSet, log.
    destruct (cli_RRSet zone (ZoneRecord.Name entry) (ZoneRecord.Type_ entry) (client w))
      as [[msg|rrSet] c1].
    + unfold fail. intros H. inversion H; subst. split; [reflexivity|].
      eexists. split; [reflexivity|]. constructor; [|constructor].
      split; [reflexivity | now left].
    + intros H. apply IH in H as (Hc & evs & Ht & Hk). split; [exact Hc|].
      eexists. split; [rewrite Ht; simpl; rewrite <- List.app_assoc; reflexivity|].
      constructor; [|exact Hk]. split; [reflexivity | now left].
Qed.

Lemma unqualify_slots_outcome (zone : string) (slots : list (option Record)) :
  forall (w : World St) o w',
    unqualify_slots zone slots w = (o, w') ->
    w' = w
    /\ match o with
       | Ok _ => True
       | Err _ => False
       | Panic => In None slots
       end.
Proof.
  induction slots as [|[r0|] slots IH]; intros w o w'; simpl.
  - unfold ret. intros H. inversion H; subst. auto.
  - unfold bind. destruct (unqualify_slots zone slots w) as [o1 w1] eqn:E.
    destruct (IH _ _ _ E) as [-> Ho1].
    destruct o1 as [rest|e|]; intros H; inversion H; subst; auto.
  - unfold panic. intros H. inversion H; subst. auto.
Qed.

Lemma last_value_none (rrs : list ResourceRecord.t) : last_value rrs = None -> rrs = [].
Proof.
  destruct rrs as [|rr rrs]; [reflexivity|]. simpl.
  destruct (last_value rrs); discriminate.
Qed.

(** X6. When [GetRecords] ends with an error, either the call for the
    record index failed, and then it was the only call made, or the
    fetch for some entry of the index failed after the fetches for the
    entries before it went well, and then it was the last call made: the
    entries after it are not fetched.  The error is the error of the
    failing call. *)
Theorem GetRecords_error (zone : string) (w : World St) (e : error) (w' : World St) :
  GetRecords zone w = (Err e, w') ->
  (exists msg,
      e = SDKError msg /\ trace w' = (trace w ++ [EvZone zone (inl msg)])%list)
  \/ (exists gcoreZone fetched entry rest sets msg,
         Zone.Records gcoreZone = (fetched ++ entry :: rest)%list
         /\ List.length sets = List.length fetched
         /\ e = SDKError msg
         /\ trace w' = (trace w ++ EvZone zone (inr gcoreZone)
                                :: map (fetch_event zone) (combine fetched sets)
                                ++ [failed_fetch zone entry msg])%list).
Proof.
  unfold GetRecords, bind, call_Zone, log.
  destruct (cli_Zone zone (client w)) as [[msg|gcoreZone] c1].
  - unfold fail. intros H. inversion H; subst. left. now exists msg.
  - destruct (fetch_loop zone (Zone.Records gcoreZone) 0 _ _) as [[slots|e1|] w1] eqn:E.
    + intros H. apply unqualify_slots_outcome in H as [_ []].
    + intros H. inversion H; subst.
      apply fetch_loop_error in E
        as (fetched & entry & rest & sets & msg & Hentries & Hlen & -> & Ht).
      right. exists gcoreZone, fetched, entry, rest, sets, msg.
      repeat split; auto. rewrite Ht. simpl. now rewrite <- List.app_assoc.
    + now apply fetch_loop_no_panic in E.
Qed.

(** X7. When [GetRecords] panics, the index and the sets of all its
    entries were fetched, and one of the sets has no entry: the slot of
    that entry was never written, and the last loop calls [RR()] on the
    [nil] it holds. *)
Theorem GetRecords_panic (zone : string) (w w' : World St) :
  GetRecords zone w = (Panic, w') ->
  exists gcoreZone sets,
    List.length sets = List.length (Zone.Records gcoreZone)
    /\ trace w' = (trace w ++ EvZone zone (inr gcoreZone)
                           :: map (fetch_event zone)
                                  (combine (Zone.Records gcoreZone) sets))%list
    /\ Exists (fun rrSet => RRSet.Records rrSet = []) sets.
Proof.
  unfold GetRecords, bind, call_Zone, log.
  destruct (cli_Zone zone (client w)) as [[msg|gcoreZone] c1]; [discriminate|].
  destruct (fetch_loop zone (Zone.Records gcoreZone) 0 _ _) as [[slots|e1|] w1] eqn:E.
  - intros H. apply unqualify_slots_outcome in H as [-> Hnone].
    apply (fetch_loop_spec zone (Zone.Records gcoreZone) []) in E
      as (sets & Hlen & Hslots & Ht).
    simpl in Hslots, Ht. subst slots.
    exists gcoreZone, sets. split; [exact Hlen|]. split.
    + rewrite Ht. simpl. now rewrite <- List.app_assoc.
    + apply in_map_iff in Hnone as ([entry rrSet] & Hslot & Hin).
      unfold slot_of in Hslot. simpl in Hslot.
      destruct (last_value (RRSet.Records rrSet)) eqn:El; [discriminate|].
      apply Exists_exists. exists rrSet. split.
      * now apply in_combine_r in Hin.
      * now apply last_value_none.
  - discriminate.
  - now apply fetch_loop_no_panic in E.
Qed.

Ltac kinds_step :=
  intros record w o w';
  unfold bind, call_RRSet, call_UpdateRRSet, call_DeleteRRSetRecord, log, ret, fail;
  simpl;
  repeat match goal with
         | |- context [cli_RRSet ?z ?n ?t ?c] =>
             destruct (cli_RRSet z n t c) as [[?err|?rrSet] ?c1]
         | |- context [cli_UpdateRRSet ?z ?n ?t ?s ?c] =>
             destruct (cli_UpdateRRSet z n t s c) as [[?err|] ?c2]
         | |- context [cli_DeleteRRSetRecord ?z ?n ?t ?d ?c] =>
             destruct (cli_DeleteRRSetRecord z n t d c) as [[?err|] ?c1]
         | |- context [strings.Contains ?a ?b] =>
             destruct (strings.Contains a b)
         end;
  simpl; intros H; inversion H; subst; clear H; simpl;
  rewrite <- ?List.app_assoc; simpl;
  eexists; (split; [reflexivity|]);
  repeat (constructor; [split; [reflexivity | simpl; tauto]|]); constructor.

Lemma append_one_kinds (zone ty : string) :
  forall record w o w',
    append_one zone ty record w = (o, w') ->
    exists evs, trace w' = (trace w ++ evs)%list
                /\ calls_only zone [FetchCall; PushCall] evs.
Proof. unfold append_one. kinds_step. Qed.

Lemma set_one_kinds (zone : string) :
  forall record w o w',
    set_one zone record w = (o, w') ->
    exists evs, trace w' = (trace w ++ evs)%list
                /\ calls_only zone [FetchCall; PushCall] evs.
Proof. unfold set_one. kinds_step. Qed.

Lemma delete_one_kinds (zone : string) :
  forall record w o w',
    delete_one zone record w = (o, w') ->
    exists evs, trace w' = (trace w ++ evs)%list /\ calls_only zone [DeleteCall] evs.
Proof. unfold delete_one. kinds_step. Qed.

Lemma run_steps_kinds (zone : string) (kinds : list CallKind)
      (step : Record -> M St unit) :
  (forall record w o w',
      step record w = (o, w') ->
      exists evs, trace w' = (trace w ++ evs)%list /\ calls_only zone kinds evs) ->
  forall records acc w o w',
    run_steps step records acc w = (o, w') ->
    exists evs, trace w' = (trace w ++ evs)%list /\ calls_only zone kinds evs.
Proof.
  intros Hstep. induction records as [|r records IH]; intros acc w o w'; simpl.
  - unfold ret. intros H. inversion H; subst.
    exists []. split; [now rewrite List.app_nil_r | constructor].
  - unfold bind. destruct (step r w) as [o1 w1] eqn:E1.
    destruct (Hstep _ _ _ _ E1) as (evs1 & Ht1 & Hk1).
    destruct o1 as [[]|e|].
    + intros H. destruct (IH _ _ _ _ H) as (evs2 & Ht2 & Hk2).
      exists (evs1 ++ evs2)%list. split.
      * rewrite Ht2, Ht1. now rewrite List.app_assoc.
      * apply Forall_app. now split.
    + intros H. inversion H; subst. now exists evs1.
    + intros H. inversion H; subst. now exists evs1.
Qed.

Lemma finish_trace (zone : string) (r : Outcome (list Record) * World St) :
  trace (snd (finish zone r)) = trace (snd r).
Proof. destruct r as [[l|e|] w]; reflexivity. Qed.

(** X8. The calls each operation makes, whatever its outcome, are all
    for the zone it was given, and: [GetRecords] only reads (the index,
    then sets) and leaves the caller's slice alone; [AppendRecords] and
    [SetRecords] only fetch and push sets, they never delete and never
    read the index; [DeleteRecords] only makes delete calls, it never
    fetches or pushes a set. *)
Theorem calls_of_each_operation (zone : string) (order : list string) (w : World St) :
  (caller_records (snd (GetRecords zone w)) = caller_records w
   /\ exists evs, trace (snd (GetRecords zone w)) = (trace w ++ evs)%list
                  /\ calls_only zone [ZoneCall; FetchCall] evs)
  /\ (exists evs, trace (snd (AppendRecords zone order w)) = (trace w ++ evs)%list
                  /\ calls_only zone [FetchCall; PushCall] evs)
  /\ (exists evs, trace (snd (SetRecords zone w)) = (trace w ++ evs)%list
                  /\ calls_only zone [FetchCall; PushCall] evs)
  /\ (exists evs, trace (snd (DeleteRecords zone w)) = (trace w ++ evs)%list
                  /\ calls_only zone [DeleteCall] evs).
Proof.
  split; [|split; [|split]].
  - unfold GetRecords, bind, call_Zone, log.
    destruct (cli_Zone zone (client w)) as [[msg|gcoreZone] c1].
    + simpl. split; [reflexivity|]. eexists. split; [reflexivity|].
      constructor; [|constructor]. split; [reflexivity | now left].
    + destruct (fetch_loop zone (Zone.Records gcoreZone) 0 _ _) as [o1 w1] eqn:E.
      apply fetch_loop_reads in E as (Hc & evs & Ht & Hk). simpl in Hc, Ht.
      assert (Hevs : calls_only zone [ZoneCall; FetchCall]
                                (EvZone zone (inr gcoreZone) :: evs)).
      { constructor; [split; [reflexivity | now left]|].
        eapply Forall_impl; [|exact Hk]. intros ev [Hz [Hin|[]]].
        split; [exact Hz | right; now left]. }
      assert (Ht' : trace w1 = (trace w ++ EvZone zone (inr gcoreZone) :: evs)%list)
        by (rewrite Ht; now rewrite <- List.app_assoc).
      destruct o1 as [slots|e|]; simpl.
      * destruct (unqualify_slots zone slots w1) as [o2 w2] eqn:E2.
        apply unqualify_slots_outcome in E2 as [-> _]. simpl.
        split; [exact Hc|]. now exists (EvZone zone (inr gcoreZone) :: evs).
      * split; [exact Hc|]. now exists (EvZone zone (inr gcoreZone) :: evs).
      * split; [exact Hc|]. now exists (EvZone zone (inr gcoreZone) :: evs).
  - rewrite AppendRecords_run, finish_trace.
    destruct (run_steps (append_step zone) _ [] (qualified zone w)) as [o w'] eqn:E.
    apply (run_steps_kinds zone [FetchCall; PushCall]) in E; [exact E|].
    intros record w0 o0 w0'. apply append_one_kinds.
  - rewrite SetRecords_run, finish_trace.
    destruct (run_steps (set_one zone) _ [] (qualified zone w)) as [o w'] eqn:E.
    apply (run_steps_kinds zone [FetchCall; PushCall]) in E; [exact E|].
    apply set_one_kinds.
  - rewrite DeleteRecords_run, finish_trace.
    destruct (run_steps (delete_one zone) _ [] (qualified zone w)) as [o w'] eqn:E.
    apply (run_steps_kinds zone [DeleteCall]) in E; [exact E|].
    apply delete_one_kinds.
Qed.

End GetMore.

Lemma GetRecords_error_witness :
  (exists msg,
      SDKError (P := sample.platform) "503: service unavailable" = SDKError msg
      /\ [EvZone "example.com." (inl "503: service unavailable")]
         = ([] ++ [EvZone "example.com." (inl msg)])%list)
  \/ (exists gcoreZone fetched entry rest sets msg,
         Zone.Records gcoreZone = (fetched ++ entry :: rest)%list
         /\ List.length sets = List.length fetched
         /\ SDKError (P := sample.platform) "503: service unavailable" = SDKError msg
         /\ [EvZone "example.com." (inl "503: service unavailable")]
            = ([] ++ EvZone "example.com." (inr gcoreZone)
                  :: map (fetch_event "example.com.") (combine fetched sets)
                  ++ [failed_fetch "example.com." entry msg])%list).
Proof.
  exact (@GetRecords_error sample.platform unit sample.down "example.com."
           (mkWorld tt [] []) (SDKError "503: service unavailable")
           (mkWorld tt [EvZone "example.com." (inl "503: service unavailable")] [])
           eq_refl).
Defined.

Lemma GetRecords_panic_witness :
  let st : sample.Store := [(("www.example.com.", "TXT"), RRSet.mk "TXT" 300 [])] in
  exists gcoreZone sets,
    List.length sets = List.length (Zone.Records gcoreZone)
    /\ trace (snd (GetRecords (P := sample.platform) (cli := sample.vendor)
                              "example.com." (sample.world st [])))
       = ([] ++ EvZone "example.com." (inr gcoreZone)
             :: map (fetch_event "example.com.")
                    (combine (Zone.Records gcoreZone) sets))%list
    /\ Exists (fun rrSet => RRSet.Records rrSet = []) sets.
Proof.
  intros st.
  exact (@GetRecords_panic sample.platform sample.Store sample.vendor "example.com."
           (sample.world st [])
           (snd (GetRecords (P := sample.platform) (cli := sample.vendor)
                            "example.com." (sample.world st [])))
           eq_refl).
Defined.

(* ================================================================== *)
(** * Batch calls that go well *)
(* ================================================================== *)

Section BatchSuccess.
Context {P : Platform} {St : Type} {cli : Client St}.

Lemma run_steps_delete_ok (zone : string) (records : list Record) :
  forall acc w out w',
    run_steps (delete_one zone) records acc w = (Ok out, w') ->
    trace w' = (trace w ++ map (delete_event zone) records)%list.
Proof.
  induction records as [|r records IH]; intros acc w out w'; simpl.
  - unfold ret. intros H. inversion H; subst. now rewrite List.app_nil_r.
  - unfold bind at 1. unfold delete_one at 1. unfold bind, call_DeleteRRSetRecord, log.
    destruct (cli_DeleteRRSetRecord zone _ _ _ (client w)) as [[err|] c1]; [discriminate|].
    unfold ret. intros H. apply IH in H. rewrite H. simpl.
    now rewrite <- List.app_assoc.
Qed.

Lemma run_steps_set_ok (zone : string) (records : list Record) :
  forall acc w out w',
    run_steps (set_one zone) records acc w = (Ok out, w') ->
    exists sets,
      List.length sets = List.length records
      /\ trace w' = (trace w ++ concat (map (set_events zone) (combine records sets)))%list.
Proof.
  induction records as [|r records IH]; intros acc w out w'; simpl.
  - unfold ret. intros H. inversion H; subst. exists []. now rewrite List.app_nil_r.
  - unfold bind at 1. unfold set_one at 1. unfold bind, call_RRSet, call_UpdateRRSet, log.
    destruct (cli_RRSet zone _ _ (client w)) as [[msg|rrSet] c1]; [discriminate|].
    simpl.
    destruct (cli_UpdateRRSet zone _ _ _ c1) as [[err|] c2]; [discriminate|].
    unfold ret. intros H. apply IH in H as (sets & Hlen & Ht).
    exists (rrSet :: sets). simpl. split; [now rewrite Hlen|].
    rewrite Ht. simpl. now rewrite <- !List.app_assoc.
Qed.

(** X9. When [DeleteRecords] returns a list, it made exactly one
    delete call for each record of the batch, in the order of the batch,
    each for the qualified name, the type and the value of the record,
    and the list it returns is the batch in that order, every record
    qualified and then unqualified. *)
Theorem DeleteRecords_success (zone : string) (w : World St)
        (rs : list Record) (w' : World St) :
  DeleteRecords zone w = (Ok rs, w') ->
  let batch := map (fun record => qualityRecordNames record zone) (caller_records w) in
  rs = map (fun record => unqualifyRecordNames record zone) batch
  /\ trace w' = (trace w ++ map (delete_event zone) batch)%list.
Proof.
  rewrite DeleteRecords_run. intros H batch.
  destruct (run_steps (delete_one zone) (caller_records (qualified zone w)) []
                      (qualified zone w)) as [[out|e|] w1] eqn:E;
    simpl in H; inversion H; subst; clear H.
  split.
  - apply run_steps_ok in E. now subst out.
  - now apply run_steps_delete_ok in E.
Qed.

(** X10. When [SetRecords] returns a list, it made for each record of
    the batch, in the order of the batch, one fetch that was answered
    with a set and one push of that set merged with the value of the
    record, and nothing else; the list it returns is the batch in that
    order, every record qualified and then unqualified. *)
Theorem SetRecords_success (zone : string) (w : World St)
        (rs : list Record) (w' : World St) :
  SetRecords zone w = (Ok rs, w') ->
  let batch := map (fun record => qualityRecordNames record zone) (caller_records w) in
  rs = map (fun record => unqualifyRecordNames record zone) batch
  /\ exists sets,
      List.length sets = List.length batch
      /\ trace w' = (trace w ++ concat (map (set_events zone) (combine batch sets)))%list.
Proof.
  rewrite SetRecords_run. intros H batch.
  destruct (run_steps (set_one zone) (caller_records (qualified zone w)) []
                      (qualified zone w)) as [[out|e|] w1] eqn:E;
    simpl in H; inversion H; subst; clear H.
  split.
  - apply run_steps_ok in E. now subst out.
  - now apply run_steps_set_ok in E.
Qed.

(** X11. When [AppendRecords] returns a list, the list holds the
    records of the batch, every record qualified and then unqualified,
    group after group by type in the order the keys of the map came in,
    and inside a group in the order of the batch.  So the list is a
    rearrangement of the batch, of the same length, and not always in
    the order of the batch. *)
Theorem AppendRecords_success (zone : string) (order : list string) (w : World St)
        (rs : list Record) (w' : World St) :
  AppendRecords zone order w = (Ok rs, w') ->
  let batch := map (fun record => qualityRecordNames record zone) (caller_records w) in
  rs = map (fun record => unqualifyRecordNames record zone) (plan order batch)
  /\ (key_order batch order ->
      Permutation rs (map (fun record => unqualifyRecordNames record zone) batch)
      /\ List.length rs = List.length (caller_records w)).
Proof.
  rewrite AppendRecords_run. intros H batch.
  destruct (run_steps (append_step zone) (plan order (caller_records (qualified zone w))) []
                      (qualified zone w)) as [[out|e|] w1] eqn:E;
    simpl in H; inversion H; subst; clear H.
  apply run_steps_ok in E. simpl in E. subst out. fold batch.
  split; [reflexivity|]. intros Hkeys.
  pose proof (plan_key_order order batch Hkeys) as Hperm.
  split.
  - now apply Permutation_map.
  - rewrite length_map. rewrite (Permutation_length Hperm).
    unfold batch. now rewrite length_map.
Qed.

(** ** A batch in two calls *)

Lemma run_steps_acc (step : Record -> M St unit) (records : list Record) :
  forall acc w,
    run_steps step records acc w
    = match run_steps step records [] w with
      | (Ok out, w') => (Ok (acc ++ out)%list, w')
      | (Err e, w') => (Err e, w')
      | (Panic, w') => (Panic, w')
      end.
Proof.
  induction records as [|r records IH]; intros acc w; simpl.
  - unfold ret. now rewrite List.app_nil_r.
  - unfold bind. destruct (step r w) as [[[]|e|] w1]; try reflexivity.
    rewrite (IH (acc ++ [r])%list), (IH ([] ++ [r])%list).
    destruct (run_steps step records [] w1) as [[out|e|] w2]; try reflexivity.
    simpl. now rewrite <- List.app_assoc.
Qed.

Lemma set_one_blind (zone : string) : blind (set_one zone).
Proof.
  intros record w x. unfold set_one, bind, call_RRSet, call_UpdateRRSet, log. simpl.
  destruct (cli_RRSet zone _ _ (client w)) as [[msg|rrSet] c1]; simpl; [reflexivity|].
  destruct (cli_UpdateRRSet zone _ _ _ c1) as [[err|] c2]; reflexivity.
Qed.

Lemma delete_one_blind (zone : string) : blind (delete_one zone).
Proof.
  intros record w x. unfold delete_one, bind, call_DeleteRRSetRecord, log. simpl.
  destruct (cli_DeleteRRSetRecord zone _ _ _ (client w)) as [[err|] c1]; reflexivity.
Qed.

Lemma run_steps_blind (step : Record -> M St unit) (records : list Record) :
  blind step ->
  forall acc w x,
    run_steps step records acc (mkWorld (client w) (trace w) x)
    = (fst (run_steps step records acc w),
       mkWorld (client (snd (run_steps step records acc w)))
               (trace (snd (run_steps step records acc w))) x).
Proof.
  intros Hb. induction records as [|r records IH]; intros acc w x; simpl.
  - reflexivity.
  - unfold bind. rewrite (Hb r w x).
    destruct (step r w) as [[[]|e|] w1]; simpl; try reflexivity.
    apply IH.
Qed.

Lemma finish_split (zone : string) (step : Record -> M St unit) :
  blind step ->
  splits_in_two
    (fun w => finish zone (run_steps step (caller_records (qualified zone w)) []
                                     (qualified zone w))).
Proof.
  intros Hb c t rs1 rs2 out1 w1 H second whole.
  set (q := fun record : Record => qualityRecordNames record zone) in *.
  unfold qualified in *. simpl in *. fold q in H, second, whole.
  destruct (run_steps step (map q rs1) [] (mkWorld c t (map q rs1))) as [[a1|e|] v1] eqn:E1;
    simpl in H; inversion H; subst out1 w1; clear H.
  pose proof (run_steps_ok _ _ _ _ _ _ E1) as Ha1. simpl in Ha1. subst a1.
  (* the first half, run on the slice of the whole batch *)
  pose proof (run_steps_blind step (map q rs1) Hb [] (mkWorld c t (map q rs1))
                              (map q rs1 ++ map q rs2)%list) as H1.
  simpl in H1. rewrite E1 in H1. simpl in H1.
  (* the second half *)
  pose proof (run_steps_blind step (map q rs2) Hb [] (mkWorld (client v1) (trace v1) (map q rs2))
                              (map q rs1 ++ map q rs2)%list) as H2.
  simpl in H2.
  unfold whole, second. rewrite map_app, run_steps_app. unfold bind. rewrite H1.
  rewrite run_steps_acc, H2.
  destruct (run_steps step (map q rs2) [] (mkWorld (client v1) (trace v1) (map q rs2)))
    as [[a2|e|] v2]; simpl; repeat split.
  now rewrite map_app.
Qed.

(** X12. [SetRecords] and [DeleteRecords] do nothing with a batch as
    a whole: a batch in one call and the same batch cut in two calls, the
    second made when the first went well, leave the vendor in the same
    state after the same calls, and return the same records. *)
Theorem batch_in_two_calls (zone : string) :
  splits_in_two (SetRecords zone) /\ splits_in_two (DeleteRecords zone).
Proof.
  split.
  - intros c t rs1 rs2 out1 w1. rewrite !SetRecords_run.
    apply (finish_split zone (set_one zone) (set_one_blind zone)).
  - intros c t rs1 rs2 out1 w1. rewrite !DeleteRecords_run.
    apply (finish_split zone (delete_one zone) (delete_one_blind zone)).
Qed.

End BatchSuccess.

Lemma DeleteRecords_success_witness :
  let held := RRSet.mk "TXT" 300 [ResourceRecord.mk ["hello"] true] in
  let st : sample.Store := [(("www.example.com.", "TXT"), held)] in
  [RecTXT (P := sample.platform) (TXT.mk "www" 300000000000 "hello")]
  = map (fun record => unqualifyRecordNames (P := sample.platform) record "example.com.")
        [RecTXT (TXT.mk "www.example.com." 300000000000 "hello")]
  /\ trace (snd (DeleteRecords (P := sample.platform) (cli := sample.vendor) "example.com."
                               (sample.world st [RecTXT (TXT.mk "www" 300000000000 "hello")])))
     = ([] ++ map (delete_event (P := sample.platform) "example.com.")
                  [RecTXT (TXT.mk "www.example.com." 300000000000 "hello")])%list.
Proof.
  intros held st.
  exact (@DeleteRecords_success sample.platform sample.Store sample.vendor "example.com."
           (sample.world st [RecTXT (TXT.mk "www" 300000000000 "hello")])
           [RecTXT (TXT.mk "www" 300000000000 "hello")]
           (snd (DeleteRecords (P := sample.platform) (cli := sample.vendor) "example.com."
                               (sample.world st [RecTXT (TXT.mk "www" 300000000000 "hello")])))
           eq_refl).
Defined.

Lemma SetRecords_success_witness :
  let held := RRSet.mk "TXT" 300 [ResourceRecord.mk ["hello"] true] in
  let st : sample.Store := [(("www.example.com.", "TXT"), held)] in
  [RecTXT (P := sample.platform) (TXT.mk "www" 300000000000 "hello")]
  = map (fun record => unqualifyRecordNames (P := sample.platform) record "example.com.")
        [RecTXT (TXT.mk "www.example.com." 300000000000 "hello")]
  /\ exists sets,
      List.length sets = 1
      /\ trace (snd (SetRecords (P := sample.platform) (cli := sample.vendor) "example.com."
                                (sample.world st [RecTXT (TXT.mk "www" 300000000000 "hello")])))
         = ([] ++ concat (map (set_events (P := sample.platform) "example.com.")
                              (combine [RecTXT (TXT.mk "www.example.com." 300000000000 "hello")]
                                       sets)))%list.
Proof.
  intros held st.
  exact (@SetRecords_success sample.platform sample.Store sample.vendor "example.com."
           (sample.world st [RecTXT (TXT.mk "www" 300000000000 "hello")])
           [RecTXT (TXT.mk "www" 300000000000 "hello")]
           (snd (SetRecords (P := sample.platform) (cli := sample.vendor) "example.com."
                            (sample.world st [RecTXT (TXT.mk "www" 300000000000 "hello")])))
           eq_refl).
Defined.

(** Two TXT records around an NS record, the key of TXT coming first:
    the list returned has the two TXT records first. *)
Lemma AppendRecords_success_witness :
  let t1 := RecTXT (P := sample.platform) (TXT.mk "a" 300000000000 "one") in
  let n := RecNS (P := sample.platform) (NS.mk "b" 300000000000 "ns.example.net.") in
  let t2 := RecTXT (P := sample.platform) (TXT.mk "c" 300000000000 "two") in
  fst (AppendRecords (cli := sample.vendor) "example.com." ["TXT"; "NS"]
                     (sample.world [] [t1; n; t2]))
  = Ok [t1; t2; n]
  /\ Permutation [t1; t2; n]
                 (map (fun record => unqualifyRecordNames (P := sample.platform) record "example.com.")
                      (map (fun record => qualityRecordNames (P := sample.platform) record "example.com.")
                           [t1; n; t2])).
Proof.
  intros t1 n t2. split; [reflexivity|].
  refine (proj1 (proj2 (@AppendRecords_success sample.platform sample.Store sample.vendor
                          "example.com." ["TXT"; "NS"] (sample.world [] [t1; n; t2])
                          [t1; t2; n]
                          (snd (AppendRecords (cli := sample.vendor) "example.com."
                                              ["TXT"; "NS"] (sample.world [] [t1; n; t2])))
                          eq_refl) _)).
  split.
  - repeat constructor; simpl; intuition discriminate.
  - intros ty. simpl. intuition.
Defined.

Lemma batch_in_two_calls_witness :
  let held := RRSet.mk "TXT" 300 [ResourceRecord.mk ["hello"] true] in
  let st : sample.Store :=
    [(("a.example.com.", "TXT"), held); (("b.example.com.", "TXT"), held)] in
  let ra := RecTXT (P := sample.platform) (TXT.mk "a" 300000000000 "hello") in
  let rb := RecTXT (P := sample.platform) (TXT.mk "b" 300000000000 "hello") in
  let first := DeleteRecords (cli := sample.vendor) "example.com." (mkWorld st [] [ra]) in
  let second :=
    DeleteRecords (cli := sample.vendor) "example.com."
                  (mkWorld (client (snd first)) (trace (snd first)) [rb]) in
  let whole := DeleteRecords (cli := sample.vendor) "example.com." (mkWorld st [] [ra; rb]) in
  fst whole = match fst second with
              | Ok out2 => Ok ([ra] ++ out2)%list
              | Err e => Err e
              | Panic => Panic
              end
  /\ client (snd whole) = client (snd second)
  /\ trace (snd whole) = trace (snd second).
Proof.
  intros held st ra rb first second whole.
  exact (proj2 (@batch_in_two_calls sample.platform sample.Store sample.vendor "example.com.")
               st [] [ra] [rb] [ra] (snd first) eq_refl).
Defined.

(* ================================================================== *)
(** * The names the helpers give *)
(* ================================================================== *)

Section NamesGiven.
Context {P : Platform}.

Lemma with_name_Name_of (record : Record) : with_name record (Name_of record) = record.
Proof. destruct record as [[]|[]|[]|[]|[]|[]|[]]; reflexivity. Qed.

(** X13. Qualifying a record of one of the six shapes whose name is
    zone-relative and whose [RR] form parses: the record comes back under
    the zone itself when its name is [@], and under its name, a dot and
    the zone otherwise. *)
Theorem qualified_name (record : Record) (zone : string) :
  supported_shape record = true ->
  single_labels record ->
  relative_name (Name_of record) ->
  zone <> "" ->
  libdns.Parse (libdns.RR_of record) <> None ->
  Name_of (qualityRecordNames record zone)
  = if String.eqb (Name_of record) "@" then zone else Name_of record ++ "." ++ zone.
Proof.
  intros Hs Hl Hn Hz Hp. rewrite qualityRecordNames_spec.
  destruct (libdns.Parse (libdns.RR_of record)) as [parsed|] eqn:E; [|congruence].
  destruct (Parse_RR_of_name record parsed Hs Hl E) as [Hs' Hname].
  rewrite Hs', Name_of_with_name, Hname.
  destruct (String.eqb (Name_of record) "@") eqn:Eat.
  - apply String.eqb_eq in Eat. rewrite Eat. now apply AbsoluteName_root.
  - apply String.eqb_neq in Eat. now apply AbsoluteName_relative.
Qed.

(** X14. Unqualifying a record that parses into one of the six
    shapes: a record named as the zone comes back under [@], and a record
    named by a zone-relative name, a dot and the zone comes back under
    that zone-relative name; the rest of the parsed record is kept. *)
Theorem unqualified_name (record parsed : Record) (zone : string) :
  zone <> "" ->
  libdns.Parse (libdns.RR_of record) = Some parsed ->
  supported_shape parsed = true ->
  (Name_of parsed = zone -> unqualifyRecordNames record zone = with_name parsed "@")
  /\ (forall name,
         relative_name name -> Name_of parsed = name ++ "." ++ zone ->
         unqualifyRecordNames record zone = with_name parsed name).
Proof.
  intros Hz Hp Hs. rewrite unqualifyRecordNames_spec, Hp, Hs. split.
  - intros ->. now rewrite RelativeName_root.
  - intros name Hn ->. now rewrite RelativeName_joined.
Qed.

Lemma qualify_parsed {L : PlatformLaws P} (r : RR.t) (parsed : Record) (name zone : string) :
  libdns.Parse r = Some parsed -> supported_shape parsed = true ->
  qualityRecordNames (with_name parsed name) zone
  = with_name parsed (libdns.AbsoluteName name zone).
Proof.
  intros Hp Hs. rewrite qualityRecordNames_spec.
  rewrite (Parse_with_name parsed name (Parse_canonical r parsed Hp) Hs).
  rewrite supported_with_name, Hs, Name_of_with_name.
  destruct parsed; reflexivity.
Qed.

(** X15. The other way round: a record that parses into one of the
    six shapes and is named as the zone, or by a zone-relative name other
    than [@], a dot and the zone, is given back by unqualifying and then
    qualifying: the result is the parsed record, under its absolute name
    again. *)
Theorem unqualify_qualify {L : PlatformLaws P} (record parsed : Record) (zone : string) :
  zone <> "" ->
  libdns.Parse (libdns.RR_of record) = Some parsed ->
  supported_shape parsed = true ->
  (Name_of parsed = zone
   \/ exists name, relative_name name /\ name <> "@" /\ Name_of parsed = name ++ "." ++ zone) ->
  qualityRecordNames (unqualifyRecordNames record zone) zone = parsed.
Proof.
  intros Hz Hp Hs Hname.
  rewrite unqualifyRecordNames_spec, Hp, Hs, (qualify_parsed _ parsed _ zone Hp Hs).
  replace (libdns.AbsoluteName (libdns.RelativeName (Name_of parsed) zone) zone)
    with (Name_of parsed); [apply with_name_Name_of|].
  destruct Hname as [Hname | (name & Hn & Hat & Hname)]; rewrite Hname.
  - rewrite RelativeName_root by exact Hz. symmetry. now apply AbsoluteName_root.
  - rewrite RelativeName_joined by assumption. symmetry.
    now apply AbsoluteName_relative.
Qed.

Lemma wrap64_exact (z : Z) :
  (-9223372036854775808 <= z < 9223372036854775808)%Z -> wrap64 z = z.
Proof.
  intros H. unfold wrap64.
  rewrite Z.mod_small by lia. lia.
Qed.

(** X16. The record [GetRecords] returns for an index entry of type
    TXT, CNAME or NS that is named by a zone-relative name, a dot and the
    zone: a record of the typed shape, under the zone-relative name, with
    the last value of the set as its text or target.  Its TTL is the TTL
    of the entry in seconds, exactly as long as that is at most
    9223372036; above, the multiplication wraps around. *)
Theorem listed_record (entry : ZoneRecord.t) (value name zone : string) :
  zone <> "" ->
  relative_name name ->
  ZoneRecord.Name entry = name ++ "." ++ zone ->
  let ttl := wrap64 (ZoneRecord.TTL entry * 1000000000) in
  (ZoneRecord.Type_ entry = "TXT" ->
   unqualifyRecordNames (entry_record entry value) zone = RecTXT (TXT.mk name ttl value))
  /\ (ZoneRecord.Type_ entry = "CNAME" ->
      unqualifyRecordNames (entry_record entry value) zone
      = RecCNAME (CNAME.mk name ttl value))
  /\ (ZoneRecord.Type_ entry = "NS" ->
      unqualifyRecordNames (entry_record entry value) zone = RecNS (NS.mk name ttl value))
  /\ ((0 <= ZoneRecord.TTL entry <= 9223372036)%Z ->
      ttl = (ZoneRecord.TTL entry * 1000000000)%Z).
Proof.
  intros Hz Hn Hname ttl.
  assert (Hrel : libdns.RelativeName (ZoneRecord.Name entry) zone = name)
    by (rewrite Hname; now apply RelativeName_joined).
  repeat split.
  - intros Hty. unfold unqualifyRecordNames, entry_record, libdns.Parse. simpl.
    rewrite Hty. simpl. now rewrite Hrel.
  - intros Hty. unfold unqualifyRecordNames, entry_record, libdns.Parse. simpl.
    rewrite Hty. simpl. now rewrite Hrel.
  - intros Hty. unfold unqualifyRecordNames, entry_record, libdns.Parse. simpl.
    rewrite Hty. simpl. now rewrite Hrel.
  - intros Httl. apply wrap64_exact. lia.
Qed.

End NamesGiven.

Lemma qualified_name_witness :
  Name_of (qualityRecordNames (P := sample.platform)
             (RecMX (MX.mk "www" 300000000000 10 "mail.example.net.")) "example.com.")
  = "www.example.com.".
Proof.
  apply (@qualified_name sample.platform
           (RecMX (MX.mk "www" 300000000000 10 "mail.example.net.")) "example.com.").
  - reflexivity.
  - exact I.
  - split; [discriminate | reflexivity].
  - discriminate.
  - discriminate.
Defined.

Lemma unqualified_name_witness :
  unqualifyRecordNames (P := sample.platform)
    (RecRR (RR.mk "example.com." 300000000000 "MX" "10 mail.example.net.")) "example.com."
  = RecMX (MX.mk "@" 300000000000 10 "mail.example.net.")
  /\ unqualifyRecordNames (P := sample.platform)
       (RecRR (RR.mk "www.example.com." 300000000000 "A" "1.2.3.4")) "example.com."
     = RecAddress (Address.mk sample.platform "www" 300000000000 "1.2.3.4").
Proof.
  split.
  - refine (proj1 (@unqualified_name sample.platform
                     (RecRR (RR.mk "example.com." 300000000000 "MX" "10 mail.example.net."))
                     (RecMX (MX.mk "example.com." 300000000000 10 "mail.example.net."))
                     "example.com." _ _ _) _).
    + discriminate.
    + reflexivity.
    + reflexivity.
    + reflexivity.
  - refine (proj2 (@unqualified_name sample.platform
                     (RecRR (RR.mk "www.example.com." 300000000000 "A" "1.2.3.4"))
                     (RecAddress (Address.mk sample.platform "www.example.com."
                                             300000000000 "1.2.3.4"))
                     "example.com." _ _ _) "www" _ _).
    + discriminate.
    + reflexivity.
    + reflexivity.
    + split; [discriminate | reflexivity].
    + reflexivity.
Defined.

Lemma unqualify_qualify_witness :
  qualityRecordNames (P := sample.platform)
    (unqualifyRecordNames
       (RecRR (RR.mk "_sip._tcp.www.example.com." 300000000000 "SRV"
                     "10 20 5060 pbx.example.net."))
       "example.com.")
    "example.com."
  = RecSRV (SRV.mk "sip" "tcp" "www.example.com." 300000000000 10 20 5060 "pbx.example.net.").
Proof.
  apply (@unqualify_qualify sample.platform sample_laws
           (RecRR (RR.mk "_sip._tcp.www.example.com." 300000000000 "SRV"
                         "10 20 5060 pbx.example.net."))
           (RecSRV (SRV.mk "sip" "tcp" "www.example.com." 300000000000 10 20 5060
                           "pbx.example.net."))
           "example.com.").
  - discriminate.
  - reflexivity.
  - reflexivity.
  - right. exists "www". repeat split; discriminate.
Defined.

Lemma listed_record_witness :
  unqualifyRecordNames (P := sample.platform)
    (entry_record (ZoneRecord.mk "www.example.com." "TXT" 300) "hello") "example.com."
  = RecTXT (TXT.mk "www" 300000000000 "hello").
Proof.
  refine (proj1 (@listed_record sample.platform
                   (ZoneRecord.mk "www.example.com." "TXT" 300) "hello" "www" "example.com."
                   _ _ _) _).
  - discriminate.
  - split; [discriminate | reflexivity].
  - reflexivity.
  - reflexivity.
Defined.
